(** * SmartCanvas: operation model, history, geometry and compositing

    A shallow embedding of [src/components/SmartCanvas.tsx].

    Numbers.  A JavaScript [number] that carries a coordinate, a width or an
    alpha is modelled as a real number: arithmetic is exact, and [NaN], the
    infinities, signed zeros and rounding are outside the model.  Layer ids
    are integers.

    Objects.  The component mutates the stroke that is being drawn in place,
    through an alias ([currentStroke] and the last element of [ops] are the
    same object).  Op objects therefore live in a store, [heap], and the
    document, the redo stack and [currentStroke] hold object identities. *)

From Stdlib Require Import Reals Lra Lia ZArith String Ascii List DecimalString.
From stdpp Require Import base decidable option list.
Import ListNotations.

(** ** Types *)

Inductive Tool := PEN | HIGHLIGHTER | ERASER | LINE | RECT | ELLIPSE | TEXT | SELECT.

#[global] Instance Tool_eq_dec : EqDecision Tool.
Proof. solve_decision. Defined.

(** The [shape] discriminant of a [ShapeOp]. *)
Inductive ShapeKind := line | rect | ellipse.

Record Point := mkPoint { px : R; py : R; pp : option R }.

(** Identity of an Op object in the store. *)
Definition oid := nat.

Module StrokeOp.
Record t := mk {
  tool : Tool;
  color : string;
  size : R;
  alpha : R;
  composite : string;
  points : list Point;
  smooth : bool;
  brushType : string;
  layer : Z }.
End StrokeOp.

Module ShapeOp.
Record t := mk {
  shape : ShapeKind;
  color : string;
  size : R;
  alpha : R;
  composite : string;
  x0 : R;
  y0 : R;
  x1 : R;
  y1 : R;
  layer : Z }.
End ShapeOp.

Module TextOp.
Record t := mk {
  text : string;
  x : R;
  y : R;
  color : string;
  size : R;
  font : string;
  layer : Z }.
End TextOp.

Module ImageOp.
(** [img] stands for the decoded [HTMLImageElement]. *)
Record t := mk {
  img : nat;
  x : R;
  y : R;
  w : R;
  h : R;
  layer : Z }.
End ImageOp.

(** The [kind] field is the constructor. *)
Inductive Op :=
| Stroke (s : StrokeOp.t)
| Shape (s : ShapeOp.t)
| Image (i : ImageOp.t)
| Text (t : TextOp.t).

Definition op_layer (op : Op) : Z :=
  match op with
  | Stroke s => StrokeOp.layer s
  | Shape s => ShapeOp.layer s
  | Image i => ImageOp.layer i
  | Text t => TextOp.layer t
  end.

Module Layer.
Record t := mk {
  id : Z;
  name : string;
  visible : bool;
  opacity : R }.
End Layer.

(** ** Utilities *)

Section Utils.
Local Open Scope R_scope.

Definition clamp (n a b : R) : R := Rmax a (Rmin b n).

Definition sq (n : R) : R := n * n.

Definition distSqToSegment (p a b : Point) : R :=
  let vx := px b - px a in
  let vy := py b - py a in
  let wx := px p - px a in
  let wy := py p - py a in
  let c1 := vx * wx + vy * wy in
  if Rle_dec c1 0 then sq (px p - px a) + sq (py p - py a)
  else
    let c2 := vx * vx + vy * vy in
    if Rle_dec c2 c1 then sq (px p - px b) + sq (py p - py b)
    else
      let t := c1 / c2 in
      let qx := px a + t * vx in
      let qy := py a + t * vy in
      sq (px p - qx) + sq (py p - qy).

(** The [for] loop of [rdp]: [ps] are the points [pts[i]], [pts[i+1]], ...
    still to visit, [dmax] and [idx] the running maximum and its index. *)
Fixpoint farthest (a b : Point) (ps : list Point) (i : nat) (dmax : R) (idx : nat)
  : R * nat :=
  match ps with
  | [] => (dmax, idx)
  | p :: ps' =>
      let d := distSqToSegment p a b in
      if Rgt_dec d dmax then farthest a b ps' (S i) d i
      else farthest a b ps' (S i) dmax idx
  end.

(** [pts.slice(1, end)]: the points strictly between the two ends. *)
Definition interior (pts : list Point) : list Point :=
  take (length pts - 2) (drop 1 pts).

(** The recursive helper of [simplifyRDP].  [fuel] bounds the recursion
    depth; [None] stands for a call that does not return (or that reads
    [pts[0]] of an empty array). *)
Fixpoint rdp (fuel : nat) (pts : list Point) (epsSq : R) : option (list Point) :=
  match fuel with
  | O => None
  | S fuel' =>
      match head pts, last pts with
      | Some a, Some b =>
          let '(dmax, idx) := farthest a b (interior pts) 1 0 0%nat in
          if Rgt_dec dmax epsSq then
            match rdp fuel' (take (idx + 1) pts) epsSq,
                  rdp fuel' (drop idx pts) epsSq with
            | Some rec1, Some rec2 => Some (removelast rec1 ++ rec2)
            | _, _ => None
            end
          else Some [a; b]
      | _, _ => None
      end
  end.

Definition simplifyRDP (points : list Point) (epsilon : R) : option (list Point) :=
  if (length points <? 3)%nat then Some points
  else rdp (length points) points (epsilon * epsilon).

End Utils.

(** ** Shape constraint *)

Section Constraint.
Local Open Scope R_scope.

(** [Math.sign], [Math.hypot] and [Math.atan2] on real numbers. *)
Definition sign (x : R) : R :=
  if Rlt_dec 0 x then 1 else if Rlt_dec x 0 then -1 else 0.

Definition hypot (x y : R) : R := sqrt (x * x + y * y).

Definition atan2 (y x : R) : R :=
  if Rlt_dec 0 x then atan (y / x)
  else if Rlt_dec x 0 then
    if Rle_dec 0 y then atan (y / x) + PI else atan (y / x) - PI
  else if Rlt_dec 0 y then PI / 2
  else if Rlt_dec y 0 then - (PI / 2)
  else 0.

Definition snaps : list R :=
  [0; PI / 4; PI / 2; (3 * PI) / 4; PI; - PI / 4; - PI / 2; (-3 * PI) / 4].

(** The distance the snapping loop minimises. *)
Definition snapDist (angle a : R) : R :=
  Rabs (atan2 (sin (angle - a)) (cos (angle - a))).

(** The [for (const a of snaps)] loop; [min = None] is
    [Number.POSITIVE_INFINITY]. *)
Fixpoint snapLoop (angle : R) (cands : list R) (best : R) (min : option R) : R :=
  match cands with
  | [] => best
  | a :: rest =>
      let d := snapDist angle a in
      match min with
      | None => snapLoop angle rest a (Some d)
      | Some m =>
          if Rlt_dec d m then snapLoop angle rest a (Some d)
          else snapLoop angle rest best min
      end
  end.

Definition snapAngle (angle : R) : R := snapLoop angle snaps 0 None.

(** [{ ...shape, x1, y1 }] *)
Definition with_end (shape : ShapeOp.t) (x1 y1 : R) : ShapeOp.t :=
  ShapeOp.mk (ShapeOp.shape shape) (ShapeOp.color shape) (ShapeOp.size shape)
    (ShapeOp.alpha shape) (ShapeOp.composite shape)
    (ShapeOp.x0 shape) (ShapeOp.y0 shape) x1 y1 (ShapeOp.layer shape).

Definition constrainWithShift (shape : ShapeOp.t) (shift : bool) : ShapeOp.t :=
  if negb shift then shape
  else
    let x0 := ShapeOp.x0 shape in
    let y0 := ShapeOp.y0 shape in
    let x1 := ShapeOp.x1 shape in
    let y1 := ShapeOp.y1 shape in
    match ShapeOp.shape shape with
    | line =>
        let dx := x1 - x0 in
        let dy := y1 - y0 in
        let angle := atan2 dy dx in
        let best := snapAngle angle in
        let len := hypot dx dy in
        with_end shape (x0 + len * cos best) (y0 + len * sin best)
    | _ =>
        let w := x1 - x0 in
        let h := y1 - y0 in
        let sideX := sign w * Rmin (Rabs w) (Rabs h) in
        let sideY := sign h * Rmin (Rabs w) (Rabs h) in
        with_end shape (x0 + sideX) (y0 + sideY)
    end.

End Constraint.

(** ** Component state *)

Module TextEditor.
Record t := mk { visible : bool; x : R; y : R; value : string }.
End TextEditor.

(** What the handlers read of the canvas element: its backing-store size
    and its bounding client rectangle. *)
Module Canvas.
Record t := mk {
  width : R; height : R;
  left : R; top : R; rectWidth : R; rectHeight : R }.
End Canvas.

Module PointerEvent.
Record t := mk { button : Z; clientX : R; clientY : R; pressure : R }.
End PointerEvent.

(** A decoded image, as [img.onload] sees it. *)
Module Img.
Record t := mk { handle : nat; width : R; height : R }.
End Img.

(** The [useState] cells of the component that the drawing core reads or
    writes, the canvas ref, and the store of Op objects. *)
Record State := mkState {
  canvasRef : option Canvas.t;
  heap : list Op;
  ops : list oid;
  redo : list oid;
  layers : list Layer.t;
  currentLayer : Z;
  tool : Tool;
  color : string;
  size : R;
  alpha : R;
  smooth : bool;
  brushType : string;
  shapeAssist : bool;
  background : string;
  isDrawing : bool;
  currentStroke : option oid;
  currentShape : option ShapeOp.t;
  shiftKey : bool;
  textEditor : TextEditor.t }.

Definition setHeap (v : list Op) (s : State) : State :=
  mkState (canvasRef s) v (ops s) (redo s) (layers s) (currentLayer s) (tool s)
    (color s) (size s) (alpha s) (smooth s) (brushType s) (shapeAssist s)
    (background s) (isDrawing s) (currentStroke s) (currentShape s) (shiftKey s)
    (textEditor s).

Definition setOps (v : list oid) (s : State) : State :=
  mkState (canvasRef s) (heap s) v (redo s) (layers s) (currentLayer s) (tool s)
    (color s) (size s) (alpha s) (smooth s) (brushType s) (shapeAssist s)
    (background s) (isDrawing s) (currentStroke s) (currentShape s) (shiftKey s)
    (textEditor s).

Definition setRedo (v : list oid) (s : State) : State :=
  mkState (canvasRef s) (heap s) (ops s) v (layers s) (currentLayer s) (tool s)
    (color s) (size s) (alpha s) (smooth s) (brushType s) (shapeAssist s)
    (background s) (isDrawing s) (currentStroke s) (currentShape s) (shiftKey s)
    (textEditor s).

Definition setLayers (v : list Layer.t) (s : State) : State :=
  mkState (canvasRef s) (heap s) (ops s) (redo s) v (currentLayer s) (tool s)
    (color s) (size s) (alpha s) (smooth s) (brushType s) (shapeAssist s)
    (background s) (isDrawing s) (currentStroke s) (currentShape s) (shiftKey s)
    (textEditor s).

Definition setCurrentLayer (v : Z) (s : State) : State :=
  mkState (canvasRef s) (heap s) (ops s) (redo s) (layers s) v (tool s)
    (color s) (size s) (alpha s) (smooth s) (brushType s) (shapeAssist s)
    (background s) (isDrawing s) (currentStroke s) (currentShape s) (shiftKey s)
    (textEditor s).

Definition setTool (v : Tool) (s : State) : State :=
  mkState (canvasRef s) (heap s) (ops s) (redo s) (layers s) (currentLayer s) v
    (color s) (size s) (alpha s) (smooth s) (brushType s) (shapeAssist s)
    (background s) (isDrawing s) (currentStroke s) (currentShape s) (shiftKey s)
    (textEditor s).

Definition setIsDrawing (v : bool) (s : State) : State :=
  mkState (canvasRef s) (heap s) (ops s) (redo s) (layers s) (currentLayer s) (tool s)
    (color s) (size s) (alpha s) (smooth s) (brushType s) (shapeAssist s)
    (background s) v (currentStroke s) (currentShape s) (shiftKey s)
    (textEditor s).

Definition setCurrentStroke (v : option oid) (s : State) : State :=
  mkState (canvasRef s) (heap s) (ops s) (redo s) (layers s) (currentLayer s) (tool s)
    (color s) (size s) (alpha s) (smooth s) (brushType s) (shapeAssist s)
    (background s) (isDrawing s) v (currentShape s) (shiftKey s)
    (textEditor s).

Definition setCurrentShape (v : option ShapeOp.t) (s : State) : State :=
  mkState (canvasRef s) (heap s) (ops s) (redo s) (layers s) (currentLayer s) (tool s)
    (color s) (size s) (alpha s) (smooth s) (brushType s) (shapeAssist s)
    (background s) (isDrawing s) (currentStroke s) v (shiftKey s)
    (textEditor s).

Definition setTextEditor (v : TextEditor.t) (s : State) : State :=
  mkState (canvasRef s) (heap s) (ops s) (redo s) (layers s) (currentLayer s) (tool s)
    (color s) (size s) (alpha s) (smooth s) (brushType s) (shapeAssist s)
    (background s) (isDrawing s) (currentStroke s) (currentShape s) (shiftKey s) v.

(** A new object: it gets the next free identity. *)
Definition alloc (op : Op) (s : State) : oid * State :=
  (length (heap s), setHeap (heap s ++ [op]) s).

(** [prev.concat(op)] for a freshly built [op]. *)
Definition appendNew (op : Op) (s : State) : State :=
  let '(r, s') := alloc op s in setOps (ops s' ++ [r]) s'.

(** The document as a sequence of Op values. *)
Definition document (s : State) : list Op :=
  omap (fun r => heap s !! r) (ops s).

Definition layerOf (h : list Op) (r : oid) : option Z := op_layer <$> h !! r.

(** ** Event handlers *)

Section Handlers.
Local Open Scope R_scope.
Local Open Scope string_scope.

Definition getPos (e : PointerEvent.t) (s : State) : Point :=
  match canvasRef s with
  | None => mkPoint 0 0 (Some 0.5)
  | Some c =>
      let x := (PointerEvent.clientX e - Canvas.left c)
               * (Canvas.width c / Canvas.rectWidth c) in
      let y := (PointerEvent.clientY e - Canvas.top c)
               * (Canvas.height c / Canvas.rectHeight c) in
      (* [e.pressure || 0.5] *)
      let pr := if Req_dec_T (PointerEvent.pressure e) 0 then 0.5
                else PointerEvent.pressure e in
      mkPoint x y (Some (clamp pr 0.05 1))
  end.

Definition FREEHAND_TOOLS : list Tool := [PEN; HIGHLIGHTER; ERASER].

Definition pointerDown (e : PointerEvent.t) (s : State) : State :=
  if negb (PointerEvent.button e =? 0)%Z then s
  else
    let s1 := setRedo [] s in
    let pos := getPos e s in
    if decide (tool s = TEXT) then
      setTextEditor (TextEditor.mk true (px pos) (py pos) "") s1
    else
      let s2 := setIsDrawing true s1 in
      if bool_decide (tool s ∈ FREEHAND_TOOLS) then
        let stroke :=
          StrokeOp.mk (tool s)
            (if decide (tool s = ERASER) then "#000000" else color s)
            (size s)
            (if decide (tool s = HIGHLIGHTER) then 0.3 else alpha s)
            (if decide (tool s = ERASER) then "destination-out" else "source-over")
            [pos] (smooth s) (brushType s) (currentLayer s) in
        let '(r, s3) := alloc (Stroke stroke) s2 in
        setOps (ops s3 ++ [r]) (setCurrentStroke (Some r) s3)
      else if negb (bool_decide (tool s = SELECT)) then
        let shapeName :=
          if decide (tool s = LINE) then line
          else if decide (tool s = RECT) then rect else ellipse in
        let shape :=
          ShapeOp.mk shapeName (color s) (size s) (alpha s) "source-over"
            (px pos) (py pos) (px pos) (py pos) (currentLayer s) in
        setCurrentShape (Some shape) s2
      else s2.

(** The stroke that a press with a freehand tool builds. *)
Definition startedStroke (e : PointerEvent.t) (s : State) : StrokeOp.t :=
  StrokeOp.mk (tool s)
    (if decide (tool s = ERASER) then "#000000" else color s)
    (size s)
    (if decide (tool s = HIGHLIGHTER) then 0.3 else alpha s)
    (if decide (tool s = ERASER) then "destination-out" else "source-over")
    [getPos e s] (smooth s) (brushType s) (currentLayer s).

(** [last.points.push(pos)] and [last.points = simplified] *)
Definition with_points (st : StrokeOp.t) (pts : list Point) : StrokeOp.t :=
  StrokeOp.mk (StrokeOp.tool st) (StrokeOp.color st) (StrokeOp.size st)
    (StrokeOp.alpha st) (StrokeOp.composite st) pts (StrokeOp.smooth st)
    (StrokeOp.brushType st) (StrokeOp.layer st).

(** Only the effect on the document is modelled; the outline drawn on the
    preview canvas while a shape is dragged is not. *)
Definition pointerMove (e : PointerEvent.t) (s : State) : State :=
  if negb (isDrawing s) then s
  else
    let pos := getPos e s in
    match currentStroke s with
    | Some _ =>
        match last (ops s) with
        | Some r =>
            match heap s !! r with
            | Some (Stroke st) =>
                setHeap (<[r := Stroke (with_points st (StrokeOp.points st ++ [pos]))]>
                           (heap s)) s
            | _ => s
            end
        | None => s
        end
    | None => s
    end.

(** [None]: the handler does not return (see [rdp]). *)
Definition pointerUp (s : State) : option State :=
  let s1 := setIsDrawing false s in
  match currentStroke s with
  | Some r =>
      let s2 := setCurrentStroke None s1 in
      match heap s !! r with
      | Some (Stroke stroke) =>
          if StrokeOp.smooth stroke then
            match simplifyRDP (StrokeOp.points stroke) 0.9 with
            | Some simplified =>
                Some (if decide (last (ops s) = Some r) then
                        setHeap (<[r := Stroke (with_points stroke simplified)]>
                                   (heap s)) s2
                      else s2)
            | None => None
            end
          else Some s2
      | _ => Some s2
      end
  | None =>
      match currentShape s with
      | Some base =>
          let sh := if shapeAssist s then constrainWithShift base (shiftKey s)
                    else base in
          Some (setCurrentShape None (appendNew (Shape sh) s1))
      | None => Some s1
      end
  end.

(** ASCII white space, as [String.prototype.trim] removes it. *)
Definition isSpace (c : ascii) : bool :=
  let n := nat_of_ascii c in
  ((9 <=? n) && (n <=? 13) || (n =? 32))%nat.

(** [!value.trim()] *)
Fixpoint isBlank (value : string) : bool :=
  match value with
  | EmptyString => true
  | String c rest => isSpace c && isBlank rest
  end.

Definition commitText (value : string) (s : State) : State :=
  let t := textEditor s in
  if isBlank value then
    setTextEditor (TextEditor.mk false (TextEditor.x t) (TextEditor.y t) "") s
  else
    let op :=
      TextOp.mk value (TextEditor.x t) (TextEditor.y t) (color s)
        (Rmax 12 (size s * 6))
        "Inter, ui-sans-serif, system-ui, -apple-system, Segoe UI, Roboto, sans-serif"
        (currentLayer s) in
    setTextEditor (TextEditor.mk false 0 0 "") (appendNew (Text op) s).

(** The updater passed to [setOps] is taken to run once. *)
Definition handleUndo (s : State) : State :=
  match last (ops s) with
  | None => s
  | Some o =>
      setRedo (o :: redo s) (setOps (take (length (ops s) - 1) (ops s)) s)
  end.

Definition handleRedo (s : State) : State :=
  match redo s with
  | [] => s
  | first :: rest => setOps (ops s ++ [first]) (setRedo rest s)
  end.

(** [confirmed] is the answer to the [confirm] dialog. *)
Definition handleClear (confirmed : bool) (s : State) : State :=
  if negb confirmed then s else setRedo [] (setOps [] s).

(** What [JSON.parse(String(reader.result)) as Op[]] gives: an exception,
    a value that is not an array, or an array (whose elements the source
    takes to be Ops without looking at them). *)
Inductive Parsed := ParseError | NotArray | ParsedArray (items : list Op).

(** The second component is the message passed to [alert], if any. *)
Definition handleLoadJSON (parsed : Parsed) (s : State) : State * option string :=
  match parsed with
  | ParsedArray items =>
      let refs := seq (length (heap s)) (length items) in
      (setRedo [] (setOps refs (setHeap (heap s ++ items) s)), None)
  | _ => (s, Some "Invalid JSON file")
  end.

Definition handleImageImport (img : Img.t) (s : State) : State :=
  match canvasRef s with
  | None => s
  | Some c =>
      let w := Canvas.width c in
      let h := Canvas.height c in
      let scale := Rmin (Rmin (w / Img.width img) (h / Img.height img)) 1 in
      let iw := Img.width img * scale in
      let ih := Img.height img * scale in
      let op := ImageOp.mk (Img.handle img) ((w - iw) / 2) ((h - ih) / 2) iw ih
                  (currentLayer s) in
      appendNew (Image op) s
  end.

Definition deleteLayer (id : Z) (s : State) : State :=
  if (length (layers s) <=? 1)%nat then s
  else
    let s1 := setLayers (filter (fun l => Layer.id l ≠ id) (layers s)) s in
    let s2 := setOps (filter (fun r => layerOf (heap s) r ≠ Some id) (ops s)) s1 in
    if decide (currentLayer s = id) then
      let remaining := filter (fun l => Layer.id l ≠ id) (layers s) in
      setCurrentLayer (match remaining with l :: _ => Layer.id l | [] => 0%Z end) s2
    else s2.

End Handlers.

(** ** Rendering *)

(** The registers of the 2D context that [renderAll] assigns. *)
Module Ctx.
Record t := mk {
  globalCompositeOperation : string;
  globalAlpha : R;
  strokeStyle : string;
  fillStyle : string;
  lineWidth : R;
  font : R * string }.
End Ctx.

(** What a drawing call puts on the surface.  A stroke's path is kept as
    the point sequence it is built from ([Curve]: the quadratic curve
    through midpoints in [renderAll]; [BrushCurve]: [drawSmoothStroke]). *)
Inductive Prim :=
| Background (bg : string) (w h : R)
| DrawImage (img : nat) (x y w h : R)
| FillText (text : string) (x y : R)
| Curve (pts : list Point)
| BrushCurve (pts : list Point) (brushType : string)
| Line (x0 y0 x1 y1 : R)
| StrokeRect (x y w h : R)
| Ellipse (cx cy rx ry : R).

(** A drawing call together with the context it was issued in. *)
Definition Painted : Type := Ctx.t * Prim.

(** A context and the surface painted so far. *)
Definition Surface : Type := Ctx.t * list Painted.

Section Render.
Local Open Scope R_scope.
Local Open Scope string_scope.

Definition setGCO (v : string) (c : Ctx.t) : Ctx.t :=
  Ctx.mk v (Ctx.globalAlpha c) (Ctx.strokeStyle c) (Ctx.fillStyle c)
    (Ctx.lineWidth c) (Ctx.font c).
Definition setAlpha (v : R) (c : Ctx.t) : Ctx.t :=
  Ctx.mk (Ctx.globalCompositeOperation c) v (Ctx.strokeStyle c) (Ctx.fillStyle c)
    (Ctx.lineWidth c) (Ctx.font c).
Definition setStrokeStyle (v : string) (c : Ctx.t) : Ctx.t :=
  Ctx.mk (Ctx.globalCompositeOperation c) (Ctx.globalAlpha c) v (Ctx.fillStyle c)
    (Ctx.lineWidth c) (Ctx.font c).
Definition setFillStyle (v : string) (c : Ctx.t) : Ctx.t :=
  Ctx.mk (Ctx.globalCompositeOperation c) (Ctx.globalAlpha c) (Ctx.strokeStyle c) v
    (Ctx.lineWidth c) (Ctx.font c).
Definition setLineWidth (v : R) (c : Ctx.t) : Ctx.t :=
  Ctx.mk (Ctx.globalCompositeOperation c) (Ctx.globalAlpha c) (Ctx.strokeStyle c)
    (Ctx.fillStyle c) v (Ctx.font c).
Definition setFont (v : R * string) (c : Ctx.t) : Ctx.t :=
  Ctx.mk (Ctx.globalCompositeOperation c) (Ctx.globalAlpha c) (Ctx.strokeStyle c)
    (Ctx.fillStyle c) (Ctx.lineWidth c) v.

Definition onCtx (f : Ctx.t -> Ctx.t) (sf : Surface) : Surface := (f sf.1, sf.2).

(** A drawing call: it is recorded with the registers as they are now. *)
Definition draw (p : Prim) (sf : Surface) : Surface := (sf.1, (sf.2 ++ [(sf.1, p)])%list).

Definition drawSmoothStroke (sf : Surface) (pts : list Point) (brushType : string)
  : Surface :=
  if (length pts <? 2)%nat then sf else draw (BrushCurve pts brushType) sf.

(** The body of [for (const op of layerOps)]. *)
Definition paintOp (layer : Layer.t) (op : Op) (sf : Surface) : Surface :=
  match op with
  | Image i =>
      let sf := onCtx (setGCO "source-over") sf in
      let sf := onCtx (setAlpha (Layer.opacity layer)) sf in
      draw (DrawImage (ImageOp.img i) (ImageOp.x i) (ImageOp.y i)
              (ImageOp.w i) (ImageOp.h i)) sf
  | Text t =>
      let sf := onCtx (setGCO "source-over") sf in
      let sf := onCtx (setAlpha (Layer.opacity layer)) sf in
      let sf := onCtx (setFillStyle (TextOp.color t)) sf in
      let sf := onCtx (setFont (TextOp.size t, TextOp.font t)) sf in
      draw (FillText (TextOp.text t) (TextOp.x t) (TextOp.y t)) sf
  | Stroke st =>
      let sf := onCtx (setGCO (StrokeOp.composite st)) sf in
      let sf := onCtx (setAlpha (StrokeOp.alpha st * Layer.opacity layer)) sf in
      let base := StrokeOp.size st in
      let sf := onCtx (setStrokeStyle (StrokeOp.color st)) sf in
      let pts := StrokeOp.points st in
      match pts with
      | [] => sf
      | _ :: rest =>
          if StrokeOp.smooth st then
            let width (p : Point) :=
              base * (if decide (StrokeOp.tool st = ERASER) then 1
                      else 0.5 + 0.5 * default 0.8 (pp p)) in
            let sf := fold_left (fun sf p => onCtx (setLineWidth (width p)) sf)
                        rest sf in
            draw (Curve pts) sf
          else
            let sf := onCtx (setLineWidth base) sf in
            drawSmoothStroke sf pts (StrokeOp.brushType st)
      end
  | Shape sh =>
      let sf := onCtx (setGCO (ShapeOp.composite sh)) sf in
      let sf := onCtx (setAlpha (ShapeOp.alpha sh * Layer.opacity layer)) sf in
      let sf := onCtx (setStrokeStyle (ShapeOp.color sh)) sf in
      let sf := onCtx (setLineWidth (ShapeOp.size sh)) sf in
      let x := Rmin (ShapeOp.x0 sh) (ShapeOp.x1 sh) in
      let y := Rmin (ShapeOp.y0 sh) (ShapeOp.y1 sh) in
      let w2 := Rabs (ShapeOp.x1 sh - ShapeOp.x0 sh) in
      let h2 := Rabs (ShapeOp.y1 sh - ShapeOp.y0 sh) in
      match ShapeOp.shape sh with
      | line => draw (Line (ShapeOp.x0 sh) (ShapeOp.y0 sh)
                        (ShapeOp.x1 sh) (ShapeOp.y1 sh)) sf
      | rect => draw (StrokeRect x y w2 h2) sf
      | ellipse => draw (Ellipse (x + w2 / 2) (y + h2 / 2) (w2 / 2) (h2 / 2)) sf
      end
  end.

(** [ops.filter((op) => op.layer === layer.id)] *)
Definition layerOps (s : State) (layer : Layer.t) : list Op :=
  omap (fun r => heap s !! r)
    (filter (fun r => layerOf (heap s) r = Some (Layer.id layer)) (ops s)).

(** The body of [for (const layer of layers)]. *)
Definition paintLayer (s : State) (sf : Surface) (layer : Layer.t) : Surface :=
  if negb (Layer.visible layer) then sf
  else
    let sf := onCtx (setAlpha (Layer.opacity layer)) sf in
    fold_left (fun sf op => paintOp layer op sf) (layerOps s layer) sf.

(** [paintBackground] runs between [save] and [restore]: it paints the
    whole surface at full opacity and leaves the registers as they were. *)
Definition paintBackground (ctx : Ctx.t) (w h : R) (bg : string) : Surface :=
  (ctx, [(setFillStyle "#ffffff" (setAlpha 1 (setGCO "source-over" ctx)),
          Background bg w h)]).

(** [ctx] holds the registers left by whatever was drawn before; [None]
    when there is no canvas to draw on. *)
Definition renderAll (ctx : Ctx.t) (s : State) : option Surface :=
  match canvasRef s with
  | None => None
  | Some c =>
      let sf := paintBackground ctx (Canvas.width c) (Canvas.height c)
                  (background s) in
      Some (fold_left (paintLayer s) (layers s) sf)
  end.

End Render.

(** ** The simplification bound, as the specification words it

    These definitions follow the specification, not the code; the
    simplifier above is compared with them. *)

Section SimplificationBound.
Local Open Scope R_scope.

(** A polyline cut at the vertices that are kept: [unchunk a chunks] starts
    at [a] and continues, for each chunk [(mid, b)], with the discarded
    vertices [mid] and then the kept vertex [b]; [kept a chunks] is what
    remains when every [mid] is dropped. *)
Fixpoint unchunk (a : Point) (chunks : list (list Point * Point)) : list Point :=
  match chunks with
  | [] => [a]
  | (mid, b) :: rest => a :: mid ++ unchunk b rest
  end.

Definition kept (a : Point) (chunks : list (list Point * Point)) : list Point :=
  a :: map snd chunks.

(** Squared perpendicular distance of [p] from the line through [a] and [b],
    times the squared length of [ab]. *)
Definition crossSq (p a b : Point) : R :=
  sq ((px b - px a) * (py p - py a) - (py b - py a) * (px p - px a)).

Definition lenSq (a b : Point) : R := sq (px b - px a) + sq (py b - py a).

(** [p] lies within tolerance of the segment [ab]: its squared distance from
    the segment is at most [e], and so is its squared perpendicular distance
    from the line through the segment. *)
Definition near (e : R) (a b p : Point) : Prop :=
  distSqToSegment p a b <= e /\ crossSq p a b <= e * lenSq a b.

(** Every discarded vertex lies within tolerance of its enclosing kept
    segment. *)
Fixpoint withinTolerance (e : R) (a : Point) (chunks : list (list Point * Point))
  : Prop :=
  match chunks with
  | [] => True
  | (mid, b) :: rest => Forall (near e a b) mid /\ withinTolerance e b rest
  end.

End SimplificationBound.

(** ** The compositing rule, as the specification words it

    These definitions follow the specification, not the code; the renderer
    above is compared with them. *)

Section CompositingRule.
Local Open Scope R_scope.
Local Open Scope string_scope.

(** Stroke and Shape: Op alpha times layer opacity.  Image and Text: layer
    opacity only. *)
Definition effectiveAlpha (layer : Layer.t) (op : Op) : R :=
  match op with
  | Stroke st => StrokeOp.alpha st * Layer.opacity layer
  | Shape sh => ShapeOp.alpha sh * Layer.opacity layer
  | Image _ | Text _ => Layer.opacity layer
  end.

(** Stroke and Shape: the Op's stored mode.  Image and Text: normal. *)
Definition effectiveBlend (op : Op) : string :=
  match op with
  | Stroke st => StrokeOp.composite st
  | Shape sh => ShapeOp.composite sh
  | Image _ | Text _ => "source-over"
  end.

(** The drawing call an Op results in; a stroke without points, and a
    stroke of a single point that is not marked smooth, draw nothing. *)
Definition primOf (op : Op) : option Prim :=
  match op with
  | Image i => Some (DrawImage (ImageOp.img i) (ImageOp.x i) (ImageOp.y i)
                       (ImageOp.w i) (ImageOp.h i))
  | Text t => Some (FillText (TextOp.text t) (TextOp.x t) (TextOp.y t))
  | Stroke st =>
      match StrokeOp.points st with
      | [] => None
      | [_] => if StrokeOp.smooth st then Some (Curve (StrokeOp.points st)) else None
      | _ => if StrokeOp.smooth st then Some (Curve (StrokeOp.points st))
             else Some (BrushCurve (StrokeOp.points st) (StrokeOp.brushType st))
      end
  | Shape sh =>
      let x := Rmin (ShapeOp.x0 sh) (ShapeOp.x1 sh) in
      let y := Rmin (ShapeOp.y0 sh) (ShapeOp.y1 sh) in
      let w2 := Rabs (ShapeOp.x1 sh - ShapeOp.x0 sh) in
      let h2 := Rabs (ShapeOp.y1 sh - ShapeOp.y0 sh) in
      Some match ShapeOp.shape sh with
           | line => Line (ShapeOp.x0 sh) (ShapeOp.y0 sh) (ShapeOp.x1 sh) (ShapeOp.y1 sh)
           | rect => StrokeRect x y w2 h2
           | ellipse => Ellipse (x + w2 / 2) (y + h2 / 2) (w2 / 2) (h2 / 2)
           end
  end.

(** A painted entry reduced to its alpha, its blend mode and what is drawn. *)
Definition composited (p : Painted) : R * string * Prim :=
  (Ctx.globalAlpha p.1, Ctx.globalCompositeOperation p.1, p.2).

Definition specPaint (layer : Layer.t) (op : Op) : list (R * string * Prim) :=
  match primOf op with
  | Some p => [(effectiveAlpha layer op, effectiveBlend op, p)]
  | None => []
  end.

Definition specLayer (s : State) (layer : Layer.t) : list (R * string * Prim) :=
  if Layer.visible layer then flat_map (specPaint layer) (layerOps s layer) else [].

End CompositingRule.

(** ** The component at mount *)

Section Initial.
Local Open Scope R_scope.
Local Open Scope string_scope.

(** The initial values of the [useState] cells. *)
Definition initialState (c : option Canvas.t) : State :=
  mkState c [] [] []
    [Layer.mk 0 "Layer 1" true 1] 0
    PEN "#164e63" 4 1 true "smooth" true "plain"
    false None None false (TextEditor.mk false 0 0 "").

(** A canvas of 800 by 600 device pixels shown at its own size. *)
Definition canvas0 : Canvas.t := Canvas.mk 800 600 0 0 800 600.

Definition textA : Op := Text (TextOp.mk "a" 10 20 "#164e63" 24 "Inter" 0).
Definition textB : Op := Text (TextOp.mk "b" 30 40 "#164e63" 24 "Inter" 0).

(** A document of two committed Ops on the first layer. *)
Definition twoOps : State :=
  setOps [0; 1]%nat (setHeap [textA; textB] (initialState (Some canvas0))).

Definition photo : Img.t := Img.mk 7 400 300.

(** A half-transparent pen stroke on a half-opaque visible layer, and a
    text on a hidden layer. *)
Definition penStroke : Op :=
  Stroke (StrokeOp.mk PEN "#164e63" 4 (1 / 2) "source-over"
            [mkPoint 0 0 None; mkPoint 5 5 None] true "smooth" 0).
Definition hiddenText : Op := Text (TextOp.mk "b" 30 40 "#164e63" 24 "Inter" 1).

Definition layered : State :=
  setLayers [Layer.mk 0 "Layer 1" true (1 / 2); Layer.mk 1 "Layer 2" false 1]
    (setOps [0; 1]%nat (setHeap [penStroke; hiddenText] (initialState (Some canvas0)))).

(** The polyline of the specification's example. *)
Definition zigzag : list Point :=
  [mkPoint 0 0 None; mkPoint 1 0.1 None; mkPoint 2 (-0.1) None; mkPoint 3 0 None].

(** The two shapes of the specification's examples, from (0,0) to (10,4). *)
Definition lineExample : ShapeOp.t :=
  ShapeOp.mk line "#164e63" 4 1 "source-over" 0 0 10 4 0.

Definition ctx0 : Ctx.t := Ctx.mk "source-over" 1 "#000000" "#000000" 1 (10, "sans-serif").

(** Presses of the primary and of the secondary button at (100, 50). *)
Definition press : PointerEvent.t := PointerEvent.mk 0 100 50 (1 / 2).

(** A pen stroke in progress: a press and two movements. *)
Definition move1 : PointerEvent.t := PointerEvent.mk 0 110 50 (1 / 2).
Definition move2 : PointerEvent.t := PointerEvent.mk 0 120 60 (1 / 2).
Definition drawing : State :=
  pointerMove move2 (pointerMove move1 (pointerDown press (initialState (Some canvas0)))).

End Initial.

(** ** Layers, saving and the controls

    The remaining handlers of the component: the layer panel, the JSON
    export and the setters that the tool bar, the sliders and the keyboard
    call. *)

Definition setColor (v : string) (s : State) : State :=
  mkState (canvasRef s) (heap s) (ops s) (redo s) (layers s) (currentLayer s)
    (tool s) v (size s) (alpha s) (smooth s) (brushType s) (shapeAssist s)
    (background s) (isDrawing s) (currentStroke s) (currentShape s) (shiftKey
    s) (textEditor s).

Definition setSize (v : R) (s : State) : State :=
  mkState (canvasRef s) (heap s) (ops s) (redo s) (layers s) (currentLayer s)
    (tool s) (color s) v (alpha s) (smooth s) (brushType s) (shapeAssist s)
    (background s) (isDrawing s) (currentStroke s) (currentShape s) (shiftKey
    s) (textEditor s).

(** [setAlpha] of the component; the name [setAlpha] is taken by the
    register of the 2D context. *)
Definition setAlphaCell (v : R) (s : State) : State :=
  mkState (canvasRef s) (heap s) (ops s) (redo s) (layers s) (currentLayer s)
    (tool s) (color s) (size s) v (smooth s) (brushType s) (shapeAssist s)
    (background s) (isDrawing s) (currentStroke s) (currentShape s) (shiftKey
    s) (textEditor s).

Definition setSmooth (v : bool) (s : State) : State :=
  mkState (canvasRef s) (heap s) (ops s) (redo s) (layers s) (currentLayer s)
    (tool s) (color s) (size s) (alpha s) v (brushType s) (shapeAssist s)
    (background s) (isDrawing s) (currentStroke s) (currentShape s) (shiftKey
    s) (textEditor s).

Definition setBrushType (v : string) (s : State) : State :=
  mkState (canvasRef s) (heap s) (ops s) (redo s) (layers s) (currentLayer s)
    (tool s) (color s) (size s) (alpha s) (smooth s) v (shapeAssist s)
    (background s) (isDrawing s) (currentStroke s) (currentShape s) (shiftKey
    s) (textEditor s).

Definition setShapeAssist (v : bool) (s : State) : State :=
  mkState (canvasRef s) (heap s) (ops s) (redo s) (layers s) (currentLayer s)
    (tool s) (color s) (size s) (alpha s) (smooth s) (brushType s) v
    (background s) (isDrawing s) (currentStroke s) (currentShape s) (shiftKey
    s) (textEditor s).

Definition setBackground (v : string) (s : State) : State :=
  mkState (canvasRef s) (heap s) (ops s) (redo s) (layers s) (currentLayer s)
    (tool s) (color s) (size s) (alpha s) (smooth s) (brushType s)
    (shapeAssist s) v (isDrawing s) (currentStroke s) (currentShape s)
    (shiftKey s) (textEditor s).

Definition setShiftKey (v : bool) (s : State) : State :=
  mkState (canvasRef s) (heap s) (ops s) (redo s) (layers s) (currentLayer s)
    (tool s) (color s) (size s) (alpha s) (smooth s) (brushType s)
    (shapeAssist s) (background s) (isDrawing s) (currentStroke s)
    (currentShape s) v (textEditor s).

(** The canvas element as [resizeCanvas] or the mounting of the component
    leaves it. *)
Definition setCanvasRef (v : option Canvas.t) (s : State) : State :=
  mkState v (heap s) (ops s) (redo s) (layers s) (currentLayer s) (tool s)
    (color s) (size s) (alpha s) (smooth s) (brushType s) (shapeAssist s)
    (background s) (isDrawing s) (currentStroke s) (currentShape s) (shiftKey s)
    (textEditor s).

Section MoreHandlers.
Local Open Scope string_scope.

(** [layers.length > 0 ? Math.max(...layers.map((l) => l.id)) + 1 : 0] *)
Definition nextLayerId (ls : list Layer.t) : Z :=
  match ls with
  | [] => 0%Z
  | l :: rest => (fold_left Z.max (map Layer.id rest) (Layer.id l) + 1)%Z
  end.

Definition addLayer (s : State) : State :=
  let newId := nextLayerId (layers s) in
  let name := "Layer " ++ NilEmpty.string_of_uint (Nat.to_uint (length (layers s) + 1)) in
  setCurrentLayer newId
    (setLayers (layers s ++ [Layer.mk newId name true 1])%list s).

(** The eye button of a layer row:
    [prev.map((l) => (l.id === layer.id ? { ...l, visible: !l.visible } : l))] *)
Definition toggleVisible (id : Z) (s : State) : State :=
  setLayers
    (map (fun l => if decide (Layer.id l = id)
                   then Layer.mk (Layer.id l) (Layer.name l)
                          (negb (Layer.visible l)) (Layer.opacity l)
                   else l)
       (layers s)) s.

Definition isImage (op : Op) : bool :=
  match op with Image _ => true | _ => false end.

(** The array that [handleSaveJSON] hands to [JSON.stringify]:
    [ops.filter((op) => op.kind !== "image")]. *)
Definition handleSaveJSON (s : State) : list Op :=
  filter (fun op => isImage op = false) (document s).

(** What the user and the environment can do to the component.  A layer
    row exists only for a layer of the list, so the row buttons are given by
    the position of the row. *)
Inductive Action :=
| PointerDown (e : PointerEvent.t)
| PointerMove (e : PointerEvent.t)
| PointerUp
| TypeText (value : string)
| CommitText
| CancelText
| Undo
| Redo
| Clear (confirmed : bool)
| LoadJSON (parsed : Parsed)
| ImportImage (img : Img.t)
| AddLayer
| DeleteLayer (row : nat)
| ToggleVisible (row : nat)
| SelectLayer (row : nat)
| SetTool (t : Tool)
| SetColor (c : string)
| SetSize (n : R)
| SetAlpha (a : R)
| SetSmooth (b : bool)
| SetBrushType (b : string)
| SetShapeAssist (b : bool)
| SetBackground (b : string)
| SetShiftKey (b : bool)
| Resize (c : Canvas.t).

Definition onRow (f : Z -> State -> State) (row : nat) (s : State) : State :=
  match layers s !! row with
  | Some l => f (Layer.id l) s
  | None => s
  end.

(** One event; [None] when the handler does not return. *)
Definition step (a : Action) (s : State) : option State :=
  match a with
  | PointerDown e => Some (pointerDown e s)
  | PointerMove e => Some (pointerMove e s)
  | PointerUp => pointerUp s
  | TypeText value =>
      let t := textEditor s in
      Some (setTextEditor (TextEditor.mk (TextEditor.visible t) (TextEditor.x t)
                             (TextEditor.y t) value) s)
  | CommitText => Some (commitText (TextEditor.value (textEditor s)) s)
  | CancelText => Some (setTextEditor (TextEditor.mk false 0 0 "") s)
  | Undo => Some (handleUndo s)
  | Redo => Some (handleRedo s)
  | Clear confirmed => Some (handleClear confirmed s)
  | LoadJSON parsed => Some (handleLoadJSON parsed s).1
  | ImportImage img => Some (handleImageImport img s)
  | AddLayer => Some (addLayer s)
  | DeleteLayer row =>
      (* the button is rendered when [layers.length > 1] *)
      Some (if (1 <? length (layers s))%nat then onRow deleteLayer row s else s)
  | ToggleVisible row => Some (onRow toggleVisible row s)
  | SelectLayer row => Some (onRow setCurrentLayer row s)
  | SetTool t => Some (setTool t s)
  | SetColor c => Some (setColor c s)
  | SetSize n => Some (setSize n s)
  | SetAlpha a => Some (setAlphaCell a s)
  | SetSmooth b => Some (setSmooth b s)
  | SetBrushType b => Some (setBrushType b s)
  | SetShapeAssist b => Some (setShapeAssist b s)
  | SetBackground b => Some (setBackground b s)
  | SetShiftKey b => Some (setShiftKey b s)
  | Resize c => Some (setCanvasRef (Some c) s)
  end.

(** A sequence of events, in order. *)
Fixpoint run (acts : list Action) (s : State) : option State :=
  match acts with
  | [] => Some s
  | a :: rest =>
      match step a s with
      | Some s' => run rest s'
      | None => None
      end
  end.

End MoreHandlers.

(** The shape kind of a shape tool, as [pointerDown] chooses it. *)
Definition shapeOfTool (t : Tool) : ShapeKind :=
  if decide (t = LINE) then line else if decide (t = RECT) then rect else ellipse.

(** ** The keyboard

    The [keydown] and [keyup] listeners that the component puts on the
    window. *)

Module KeyboardEvent.
Record t := mk {
  key : string;
  ctrlKey : bool;
  metaKey : bool;
  shiftKey : bool;
  altKey : bool }.
End KeyboardEvent.

Section Keyboard.
Local Open Scope string_scope.

(** [String.prototype.toLowerCase] on the letters A to Z; the keys that
    [onKey] compares with are ASCII letters. *)
Definition lowerAscii (c : ascii) : ascii :=
  let n := nat_of_ascii c in
  if ((65 <=? n) && (n <=? 90))%nat then ascii_of_nat (n + 32) else c.

Fixpoint toLowerCase (s : string) : string :=
  match s with
  | EmptyString => EmptyString
  | String c rest => String (lowerAscii c) (toLowerCase rest)
  end.

(** The quick tool shortcuts of [onKey]. *)
Definition toolShortcut (key : string) (s : State) : State :=
  let s := if key =? "v" then setTool SELECT s else s in
  let s := if key =? "p" then setTool PEN s else s in
  let s := if key =? "h" then setTool HIGHLIGHTER s else s in
  let s := if key =? "e" then setTool ERASER s else s in
  let s := if key =? "l" then setTool LINE s else s in
  let s := if key =? "r" then setTool RECT s else s in
  let s := if key =? "o" then setTool ELLIPSE s else s in
  let s := if key =? "t" then setTool TEXT s else s in
  s.

(** The [keydown] listener on the window.  [toggleFullscreen], on the key
    f, touches nothing of the state modelled here. *)
Definition onKey (e : KeyboardEvent.t) (s : State) : State :=
  let key := toLowerCase (KeyboardEvent.key e) in
  let ctrlOrMeta := KeyboardEvent.ctrlKey e || KeyboardEvent.metaKey e in
  if ctrlOrMeta && (key =? "z") && negb (KeyboardEvent.shiftKey e) then handleUndo s
  else if ctrlOrMeta && ((key =? "y") || (key =? "z") && KeyboardEvent.shiftKey e)
  then handleRedo s
  else if KeyboardEvent.key e =? "Shift" then setShiftKey true s
  else if negb (KeyboardEvent.ctrlKey e) && negb (KeyboardEvent.metaKey e)
          && negb (KeyboardEvent.altKey e) then toolShortcut key s
  else s.

(** The [keyup] listener on the window. *)
Definition onUp (e : KeyboardEvent.t) (s : State) : State :=
  if KeyboardEvent.key e =? "Shift" then setShiftKey false s else s.

End Keyboard.

(** The document entries of a layer, as [renderAll] selects them. *)
Definition ofLayer (s : State) (l : Layer.t) : list oid :=
  filter (fun r => layerOf (heap s) r = Some (Layer.id l)) (ops s).

(** ** Invariants of the component state *)

Definition layerIds (s : State) : list Z := map Layer.id (layers s).

(** The layer list is never empty, no two layers share an id, and the
    current layer is one of the list. *)
Definition LayersOk (s : State) : Prop :=
  layers s <> [] /\ NoDup (layerIds s) /\ currentLayer s ∈ layerIds s.

(** No Op object is held twice by the document and the redo stack taken
    together, and every entry is an object that exists. *)
Definition RefsOk (s : State) : Prop :=
  NoDup (ops s ++ redo s) /\
  Forall (fun r => r < length (heap s)) (ops s ++ redo s).

(** [op'] is [op], or the stroke [op] with other points. *)
Definition repointed (op op' : Op) : Prop :=
  op' = op \/ exists st pts, op = Stroke st /\ op' = Stroke (with_points st pts).

(** Every object of [h] is still there in [h'], at most repointed. *)
Definition persists (h h' : list Op) : Prop :=
  forall r op, h !! r = Some op -> exists op', h' !! r = Some op' /\ repointed op op'.

(** The entry [r] belongs to a layer of the list that is shown. *)
Definition paintable (s : State) (r : oid) : Prop :=
  Exists (fun l => Layer.visible l = true /\ layerOf (heap s) r = Some (Layer.id l))
    (layers s).

#[global] Instance paintable_dec (s : State) (r : oid) : Decision (paintable s r).
Proof. unfold paintable. apply _. Defined.

(** The squared distance from [p] to the point of the line through [a] and
    [b] at parameter [t] (0 at [a], 1 at [b]); for [t] between 0 and 1 the
    point is on the segment. *)
Definition distSqAt (p a b : Point) (t : R) : R :=
  (sq (px p - (px a + t * (px b - px a))) + sq (py p - (py a + t * (py b - py a))))%R.

(** * Properties *)

(** Case analysis on the first comparison of reals in the goal. *)
Ltac case_Rdec :=
  match goal with
  | |- context [Rlt_dec ?a ?b] => destruct (Rlt_dec a b)
  | |- context [Rle_dec ?a ?b] => destruct (Rle_dec a b)
  | |- context [Rgt_dec ?a ?b] => destruct (Rgt_dec a b)
  end.


(** ** History: undo and redo *)

Section History.

Lemma last_snoc_oid (os : list oid) (o : oid) : last (os ++ [o]) = Some o.
Proof. apply last_snoc. Qed.

Lemma take_snoc_oid (os : list oid) (o : oid) :
  take (length (os ++ [o]) - 1) (os ++ [o]) = os.
Proof.
  rewrite length_app; simpl.
  replace (length os + 1 - 1) with (length os) by lia.
  by rewrite take_app_length.
Qed.

Lemma handleUndo_snoc (s : State) (os : list oid) (o : oid) :
  handleUndo (setOps (os ++ [o]) s) = setRedo (o :: redo s) (setOps os s).
Proof.
  unfold handleUndo; cbn [ops setOps redo].
  rewrite last_snoc_oid, take_snoc_oid. reflexivity.
Qed.

(** C1. Undo/redo inverse law.  When the document is [o1..on] with last
    element [o], undo leaves exactly [o1..on-1] and puts [o] at the front of
    the redo stack without touching any Op object; redo then takes that
    front element off and appends it, which gives back the state before the
    undo: the same objects, in the same order, with the same field values. *)
Theorem undo_redo_inverse (s : State) (os : list oid) (o : oid) :
  ops s = os ++ [o] ->
  let u := handleUndo s in
  ops u = os /\ redo u = o :: redo s /\ heap u = heap s /\
  document u = omap (fun r => heap s !! r) os /\
  ops (handleRedo u) = os ++ [o] /\ redo (handleRedo u) = redo s /\
  handleRedo u = s /\ document (handleRedo u) = document s.
Proof.
  intros Hops u.
  assert (Hs : s = setOps (os ++ [o]) s).
  { destruct s; cbn in *; by subst. }
  assert (Hu : u = setRedo (o :: redo s) (setOps os s)).
  { unfold u. rewrite Hs at 1. apply handleUndo_snoc. }
  assert (Hr : handleRedo u = s).
  { rewrite Hu. unfold handleRedo; cbn [redo setRedo setOps ops].
    destruct s; cbn in *; by subst. }
  rewrite Hr. rewrite Hu. cbn [ops redo heap setRedo setOps document].
  by repeat split.
Qed.

Lemma undo_redo_inverse_witness :
  ops (handleUndo twoOps) = [0] /\ redo (handleUndo twoOps) = [1] /\
  handleRedo (handleUndo twoOps) = twoOps.
Proof.
  destruct (undo_redo_inverse twoOps [0] 1 eq_refl)
    as (H1 & H2 & _ & _ & _ & _ & H3 & _).
  split; [exact H1 | split; [exact H2 | exact H3]].
Defined.

End History.

(** ** No-op conditions and layer deletion *)

Section NoOps.

Lemma undo_never_clears (s : State) (o : oid) :
  last (ops s) = Some o -> redo (handleUndo s) = o :: redo s.
Proof. intros H. unfold handleUndo. by rewrite H. Qed.

Lemma redo_pops_one (s : State) (o : oid) (rest : list oid) :
  redo s = o :: rest -> redo (handleRedo s) = rest /\ ops (handleRedo s) = ops s ++ [o].
Proof. intros H. unfold handleRedo. by rewrite H. Qed.

(** C8. Undo on an empty document, redo on an empty redo stack and deleting
    the only layer return the state as it was: document, redo stack, layer
    list and everything else.  Deleting a layer while at least two exist
    keeps, in order, exactly the document entries whose layer id differs
    from the deleted one, and changes no Op object. *)
Theorem noop_conditions (s : State) (id : Z) :
  handleUndo (setOps [] s) = setOps [] s /\
  handleRedo (setRedo [] s) = setRedo [] s /\
  (forall l, deleteLayer id (setLayers [l] s) = setLayers [l] s) /\
  (forall l1 l2 ls,
     let s' := deleteLayer id (setLayers (l1 :: l2 :: ls) s) in
     ops s' = filter (fun r => layerOf (heap s) r ≠ Some id) (ops s) /\
     (forall r, r ∈ ops s' <-> r ∈ ops s /\ layerOf (heap s) r ≠ Some id) /\
     sublist (ops s') (ops s) /\
     heap s' = heap s /\ redo s' = redo s /\
     layers s' = filter (fun l => Layer.id l ≠ id) (l1 :: l2 :: ls)).
Proof.
  repeat split; try reflexivity.
  - unfold deleteLayer; cbn [layers setLayers length Nat.leb].
    case_decide; reflexivity.
  - unfold deleteLayer in H; cbn [layers setLayers length Nat.leb] in H.
    case_decide; cbn in H; by apply list_elem_of_filter in H as [_ ?].
  - unfold deleteLayer in H; cbn [layers setLayers length Nat.leb] in H.
    case_decide; cbn in H; by apply list_elem_of_filter in H as [? _].
  - intros [Hin Hne].
    unfold deleteLayer; cbn [layers setLayers length Nat.leb].
    case_decide; cbn; by apply list_elem_of_filter.
  - unfold deleteLayer; cbn [layers setLayers length Nat.leb].
    case_decide; cbn; apply sublist_filter.
  - unfold deleteLayer; cbn [layers setLayers length Nat.leb].
    case_decide; reflexivity.
  - unfold deleteLayer; cbn [layers setLayers length Nat.leb].
    case_decide; reflexivity.
  - unfold deleteLayer; cbn [layers setLayers length Nat.leb].
    case_decide; reflexivity.
Qed.

End NoOps.

(** ** Pointer-down *)

Section PointerDown.
Local Open Scope string_scope.
Local Open Scope list_scope.

Lemma pointerDown_primary (e : PointerEvent.t) (s : State) :
  PointerEvent.button e = 0%Z ->
  pointerDown e s =
    let s1 := setRedo [] s in
    let pos := getPos e s in
    if decide (tool s = TEXT) then
      setTextEditor (TextEditor.mk true (px pos) (py pos) "") s1
    else
      let s2 := setIsDrawing true s1 in
      if bool_decide (tool s ∈ FREEHAND_TOOLS) then
        let stroke :=
          StrokeOp.mk (tool s)
            (if decide (tool s = ERASER) then "#000000" else color s)
            (size s)
            (if decide (tool s = HIGHLIGHTER) then 0.3%R else alpha s)
            (if decide (tool s = ERASER) then "destination-out" else "source-over")
            [pos] (smooth s) (brushType s) (currentLayer s) in
        setOps (ops s ++ [length (heap s)])
          (setCurrentStroke (Some (length (heap s)))
             (setHeap (heap s ++ [Stroke stroke]) s2))
      else if negb (bool_decide (tool s = SELECT)) then
        let shapeName :=
          if decide (tool s = LINE) then line
          else if decide (tool s = RECT) then rect else ellipse in
        setCurrentShape
          (Some (ShapeOp.mk shapeName (color s) (size s) (alpha s) "source-over"
                   (px pos) (py pos) (px pos) (py pos) (currentLayer s))) s2
      else s2.
Proof.
  intros Hb. unfold pointerDown. rewrite Hb. reflexivity.
Qed.

Lemma pointerDown_other_button (e : PointerEvent.t) (s : State) :
  PointerEvent.button e ≠ 0%Z -> pointerDown e s = s.
Proof.
  intros Hb. unfold pointerDown.
  destruct (Z.eqb_spec (PointerEvent.button e) 0); [done | reflexivity].
Qed.

(** C10. A press of the primary button empties the redo stack whatever the
    tool is.  With a tool that is not a freehand tool the press commits
    nothing: document and Op objects are as before; the text tool only opens
    the editor at the pointer, a shape tool only records the provisional
    shape, the select tool records nothing. *)
Theorem pointerDown_clears_redo (e : PointerEvent.t) (s : State) :
  PointerEvent.button e = 0%Z ->
  let s' := pointerDown e s in
  redo s' = [] /\
  (tool s ∉ FREEHAND_TOOLS -> ops s' = ops s /\ heap s' = heap s) /\
  (tool s = TEXT ->
     TextEditor.visible (textEditor s') = true /\
     currentStroke s' = currentStroke s /\ currentShape s' = currentShape s) /\
  (tool s = SELECT ->
     currentStroke s' = currentStroke s /\ currentShape s' = currentShape s) /\
  (tool s ∈ [LINE; RECT; ELLIPSE] -> is_Some (currentShape s')).
Proof.
  intros Hb s'. unfold s'. rewrite (pointerDown_primary e s Hb). cbn zeta.
  split; [| split; [| split; [| split]]].
  - repeat case_decide; repeat case_bool_decide; reflexivity.
  - intros Hfree. case_decide; [by split|].
    rewrite bool_decide_eq_false_2 by done.
    case_bool_decide; by split.
  - intros Ht. rewrite decide_True by done. by repeat split.
  - intros Ht. rewrite Ht. by split.
  - intros Hshape.
    assert (tool s = LINE \/ tool s = RECT \/ tool s = ELLIPSE) as [-> | [-> | ->]]
      by (rewrite !elem_of_cons in Hshape; destruct Hshape as [?|[?|[?|Hnil]]];
          [tauto..| by apply elem_of_nil in Hnil]);
      cbn; eauto.
Qed.

Lemma pointerDown_clears_redo_witness :
  redo (pointerDown press (setTool SELECT (handleUndo twoOps))) = [] /\
  redo (handleUndo twoOps) = [1].
Proof.
  split; [| reflexivity].
  exact (proj1 (pointerDown_clears_redo press (setTool SELECT (handleUndo twoOps))
                  eq_refl)).
Defined.

End PointerDown.

(** ** Freehand gesture start *)

Section GestureStart.




End GestureStart.

(** ** Loading a saved document *)

Section Load.

Lemma omap_lookup_fresh (h items : list Op) :
  omap (fun r => (h ++ items) !! r) (seq (length h) (length items)) = items.
Proof.
  revert h. induction items as [|it items IH]; intros h; [reflexivity|].
  cbn [length seq]. simpl omap.
  rewrite lookup_app_r by lia. rewrite Nat.sub_diag. cbn.
  f_equal.
  specialize (IH (h ++ [it])).
  rewrite length_app in IH. cbn in IH.
  replace (length h + 1)%nat with (S (length h)) in IH by lia.
  by rewrite <- app_assoc in IH.
Qed.

(** C7. Load atomicity.  When parsing fails, or gives something that is not
    an array, the load raises the alert "Invalid JSON file" and the state is
    the one before: document, redo stack and all the rest.  When parsing
    gives an array, no alert is raised, the document becomes exactly the
    loaded Ops, in order, and the redo stack is emptied; the Op objects that
    existed before are not modified. *)
Theorem load_atomicity (s : State) (items : list Op) :
  handleLoadJSON ParseError s = (s, Some "Invalid JSON file"%string) /\
  handleLoadJSON NotArray s = (s, Some "Invalid JSON file"%string) /\
  (handleLoadJSON (ParsedArray items) s).2 = None /\
  document (handleLoadJSON (ParsedArray items) s).1 = items /\
  redo (handleLoadJSON (ParsedArray items) s).1 = [] /\
  (forall r op, heap s !! r = Some op ->
     heap (handleLoadJSON (ParsedArray items) s).1 !! r = Some op).
Proof.
  repeat split.
  - unfold document; cbn. apply omap_lookup_fresh.
  - intros r op Hr. cbn. by apply lookup_app_l_Some.
Qed.

End Load.

(** ** Redo invalidation *)

Section RedoInvalidation.

Lemma handleImageImport_redo (img : Img.t) (s : State) :
  redo (handleImageImport img s) = redo s.
Proof. unfold handleImageImport. by destruct (canvasRef s). Qed.

Lemma commitText_redo (value : string) (s : State) :
  redo (commitText value s) = redo s.
Proof. unfold commitText. by destruct (isBlank value). Qed.

Lemma pointerUp_redo (s s' : State) : pointerUp s = Some s' -> redo s' = redo s.
Proof.
  unfold pointerUp. intros H.
  repeat (case_match; simplify_eq); try reflexivity.
Qed.

(** C2 on the code.  Undo the second of two committed Ops, then import an
    image: the image is appended to the document but the redo stack still
    holds the undone Op, and a redo puts that Op back, after the image. *)
Theorem image_import_keeps_redo :
  redo (handleUndo twoOps) = [1] /\
  ops (handleImageImport photo (handleUndo twoOps)) = [0; 2] /\
  (exists i, heap (handleImageImport photo (handleUndo twoOps)) !! 2 = Some (Image i)) /\
  redo (handleImageImport photo (handleUndo twoOps)) = [1] /\
  ops (handleRedo (handleImageImport photo (handleUndo twoOps))) = [0; 2; 1].
Proof.
  repeat split; try reflexivity.
  eexists. reflexivity.
Qed.

End RedoInvalidation.

(** ** Compositing *)

Section Compositing.
Local Open Scope R_scope.

Lemma widths_keep (w : Point -> R) (pts : list Point) (sf : Surface) :
  let sf' := fold_left (fun sf p => onCtx (setLineWidth (w p)) sf) pts sf in
  sf'.2 = sf.2 /\
  Ctx.globalAlpha sf'.1 = Ctx.globalAlpha sf.1 /\
  Ctx.globalCompositeOperation sf'.1 = Ctx.globalCompositeOperation sf.1.
Proof.
  revert sf. induction pts as [|p pts IH]; intros sf; cbn; [done|].
  destruct (IH (onCtx (setLineWidth (w p)) sf)) as (H1 & H2 & H3).
  cbn in *. by rewrite H1, H2, H3.
Qed.

Lemma paintOp_composited (layer : Layer.t) (op : Op) (sf : Surface) :
  map composited (paintOp layer op sf).2 =
  (map composited sf.2 ++ specPaint layer op)%list.
Proof.
  destruct sf as [c l]. unfold specPaint.
  destruct op as [st|sh|i|t]; cbn.
  - destruct st as [tl col sz al comp pts sm bt ly]; cbn.
    destruct pts as [|p0 pts]; cbn; [by rewrite app_nil_r|].
    destruct sm; cbn.
    + match goal with
      | |- context [fold_left ?f pts ?sf0] =>
          destruct (widths_keep
                      (fun p => sz * (if decide (tl = ERASER) then 1
                                      else 0.5 + 0.5 * default 0.8 (pp p)))
                      pts sf0) as (H1 & H2 & H3)
      end.
      cbn in H1, H2, H3. rewrite H1, map_app. cbn.
      unfold composited at 2; cbn. rewrite H2, H3.
      by destruct pts.
    + unfold drawSmoothStroke; cbn.
      destruct pts; cbn; [by rewrite app_nil_r|].
      by rewrite map_app.
  - destruct sh as [k col sz al comp a0 b0 a1 b1 ly]; cbn.
    destruct k; cbn; by rewrite map_app.
  - by rewrite map_app.
  - by rewrite map_app.
Qed.

Lemma paintOps_composited (layer : Layer.t) (l : list Op) (sf : Surface) :
  map composited (fold_left (fun sf op => paintOp layer op sf) l sf).2 =
  (map composited sf.2 ++ flat_map (specPaint layer) l)%list.
Proof.
  revert sf. induction l as [|op l IH]; intros sf; cbn; [by rewrite app_nil_r|].
  by rewrite IH, paintOp_composited, <- app_assoc.
Qed.

Lemma paintLayer_composited (s : State) (layer : Layer.t) (sf : Surface) :
  map composited (paintLayer s sf layer).2 =
  (map composited sf.2 ++ specLayer s layer)%list.
Proof.
  unfold paintLayer, specLayer. destruct (Layer.visible layer); cbn.
  - by rewrite paintOps_composited.
  - by rewrite app_nil_r.
Qed.

Lemma paintLayers_composited (s : State) (ls : list Layer.t) (sf : Surface) :
  map composited (fold_left (paintLayer s) ls sf).2 =
  (map composited sf.2 ++ flat_map (specLayer s) ls)%list.
Proof.
  revert sf. induction ls as [|l ls IH]; intros sf; cbn; [by rewrite app_nil_r|].
  by rewrite IH, paintLayer_composited, <- app_assoc.
Qed.

Lemma paintLayers_visible (s : State) (ls : list Layer.t) (sf : Surface) :
  fold_left (paintLayer s) (filter (fun l => Layer.visible l = true) ls) sf =
  fold_left (paintLayer s) ls sf.
Proof.
  revert sf. induction ls as [|l ls IH]; intros sf; [reflexivity|].
  rewrite filter_cons. case_decide as Hv; cbn.
  - apply IH.
  - rewrite IH. unfold paintLayer at 3.
    destruct (Layer.visible l); [done | reflexivity].
Qed.

Lemma elem_of_layerOps (s : State) (layer : Layer.t) (op : Op) :
  op ∈ layerOps s layer <->
  exists r, r ∈ ops s /\ heap s !! r = Some op /\ op_layer op = Layer.id layer.
Proof.
  unfold layerOps. rewrite list_elem_of_omap. split.
  - intros (r & Hr & Hop). apply list_elem_of_filter in Hr as [Hl Hin].
    exists r. repeat split; try done.
    unfold layerOf in Hl. rewrite Hop in Hl. by inversion Hl.
  - intros (r & Hin & Hop & Hl). exists r. split; [|done].
    apply list_elem_of_filter. split; [|done].
    unfold layerOf. rewrite Hop. cbn. by rewrite Hl.
Qed.

Lemma elem_of_specLayers (s : State) (ls : list Layer.t) (e : R * string * Prim) :
  e ∈ flat_map (specLayer s) ls <->
  exists layer op, layer ∈ ls /\ Layer.visible layer = true /\
    op ∈ layerOps s layer /\ primOf op = Some e.2 /\
    e.1.1 = effectiveAlpha layer op /\ e.1.2 = effectiveBlend op.
Proof.
  rewrite list_elem_of_In, in_flat_map. split.
  - intros (layer & Hl & He). unfold specLayer in He.
    destruct (Layer.visible layer) eqn:Hv; [|done].
    apply in_flat_map in He as (op & Hop & He). unfold specPaint in He.
    destruct (primOf op) as [p|] eqn:Hp; [|done].
    destruct He as [<-|[]]. exists layer, op.
    rewrite !list_elem_of_In. by repeat split.
  - intros (layer & op & Hl & Hv & Hop & Hp & Ha & Hb).
    exists layer. rewrite <- list_elem_of_In. split; [done|].
    unfold specLayer. rewrite Hv. apply in_flat_map. exists op.
    rewrite <- list_elem_of_In. split; [done|].
    unfold specPaint. rewrite Hp. left.
    destruct e as [[a b] p]; cbn in *. by subst.
Qed.

(** C5. Compositing.  A render paints the background at full opacity with
    normal blending and then, layer by layer in z-order and Op by Op in
    document order, exactly the drawing calls of the Ops of the visible
    layers.  Each call for a Stroke or a Shape is issued with alpha equal to
    the Op's alpha times the layer's opacity and with the Op's own composite
    mode; each call for an Image or a Text with alpha equal to the layer's
    opacity and with "source-over".  Hidden layers add nothing: rendering
    without them gives the same surface. *)
Theorem compositing_alpha (ctx : Ctx.t) (s : State) (c : Canvas.t) :
  canvasRef s = Some c ->
  exists sf, renderAll ctx s = Some sf /\
    map composited sf.2 =
      (1, "source-over"%string,
        Background (background s) (Canvas.width c) (Canvas.height c))
      :: flat_map (specLayer s) (layers s) /\
    (forall e, e ∈ map composited sf.2 ->
       e = (1, "source-over"%string,
             Background (background s) (Canvas.width c) (Canvas.height c)) \/
       exists layer op,
         layer ∈ layers s /\ Layer.visible layer = true /\
         op ∈ layerOps s layer /\ primOf op = Some e.2 /\
         e.1.1 = match op with
                 | Stroke st => StrokeOp.alpha st * Layer.opacity layer
                 | Shape sh => ShapeOp.alpha sh * Layer.opacity layer
                 | Image _ | Text _ => Layer.opacity layer
                 end /\
         e.1.2 = match op with
                 | Stroke st => StrokeOp.composite st
                 | Shape sh => ShapeOp.composite sh
                 | Image _ | Text _ => "source-over"%string
                 end) /\
    (forall layer op p,
       layer ∈ layers s -> Layer.visible layer = true ->
       op ∈ layerOps s layer -> primOf op = Some p ->
       (effectiveAlpha layer op, effectiveBlend op, p) ∈ map composited sf.2) /\
    renderAll ctx (setLayers (filter (fun l => Layer.visible l = true) (layers s)) s)
      = Some sf.
Proof.
  intros Hc. unfold renderAll. cbn [canvasRef setLayers layers background].
  rewrite Hc. eexists. split; [reflexivity|].
  assert (Heq : map composited
      (fold_left (paintLayer s) (layers s)
         (paintBackground ctx (Canvas.width c) (Canvas.height c) (background s))).2 =
      (1, "source-over"%string,
        Background (background s) (Canvas.width c) (Canvas.height c))
      :: flat_map (specLayer s) (layers s)).
  { by rewrite paintLayers_composited. }
  split; [exact Heq|]. rewrite Heq. split; [|split].
  - intros e He. apply elem_of_cons in He as [He|He]; [by left|right].
    apply elem_of_specLayers in He. exact He.
  - intros layer op p Hl Hv Hop Hp. apply elem_of_cons. right.
    apply elem_of_specLayers. exists layer, op. by repeat split.
  - f_equal.
    change (paintLayer
              (setLayers (filter (fun l => Layer.visible l = true) (layers s)) s))
      with (paintLayer s).
    apply paintLayers_visible.
Qed.

(** The specification's example: a stroke of alpha 0.5 on a layer of
    opacity 0.5 is painted with alpha 0.25; the text on the hidden layer is
    not painted. *)
Lemma compositing_alpha_witness :
  exists sf, renderAll ctx0 layered = Some sf /\
    exists a, a = 0.25 /\
      map composited sf.2 =
        [(1, "source-over"%string, Background "plain" 800 600);
         (a, "source-over"%string, Curve [mkPoint 0 0 None; mkPoint 5 5 None])].
Proof.
  destruct (compositing_alpha ctx0 layered canvas0 eq_refl) as (sf & Hr & Heq & _).
  exists sf. split; [exact Hr|].
  exists (1 / 2 * (1 / 2)). split; [lra|]. exact Heq.
Defined.

End Compositing.

(** ** Shape constraint: angles *)

Section Snapping.
Local Open Scope R_scope.

Lemma PI_pos : 0 < PI.
Proof. exact PI_RGT_0. Qed.

Lemma sin_shift_up (t : R) : sin (t + 2 * PI) = sin t.
Proof. replace (t + 2 * PI) with (t + PI + PI) by ring. rewrite !neg_sin. ring. Qed.
Lemma cos_shift_up (t : R) : cos (t + 2 * PI) = cos t.
Proof. replace (t + 2 * PI) with (t + PI + PI) by ring. rewrite !neg_cos. ring. Qed.
Lemma sin_shift_down (t : R) : sin (t - 2 * PI) = sin t.
Proof. rewrite <- (sin_shift_up (t - 2 * PI)). f_equal. ring. Qed.
Lemma cos_shift_down (t : R) : cos (t - 2 * PI) = cos t.
Proof. rewrite <- (cos_shift_up (t - 2 * PI)). f_equal. ring. Qed.

Lemma cos_pos_range (t : R) : - PI < t <= PI -> 0 < cos t -> - (PI / 2) < t < PI / 2.
Proof.
  intros [Hl Hu] Hc. pose proof PI_pos.
  split.
  - destruct (Rlt_dec (- (PI / 2)) t) as [|Hn]; [done|].
    assert (cos (- t) <= 0) by (apply cos_le_0; lra).
    rewrite cos_neg in *. lra.
  - destruct (Rlt_dec t (PI / 2)) as [|Hn]; [done|].
    assert (cos t <= 0) by (apply cos_le_0; lra). lra.
Qed.

Lemma atan2_sin_cos (t : R) : - PI < t <= PI -> atan2 (sin t) (cos t) = t.
Proof.
  intros [Hl Hu]. pose proof PI_pos as HPI. unfold atan2.
  destruct (Rlt_dec 0 (cos t)) as [Hc|Hc].
  - apply atan_tan. apply cos_pos_range; [lra | done].
  - destruct (Rlt_dec (cos t) 0) as [Hc'|Hc'].
    + destruct (Rle_dec 0 (sin t)) as [Hs|Hs].
      * (* second quadrant *)
        assert (Ht : PI / 2 < t).
        { destruct (Rlt_dec (PI / 2) t) as [|Hn]; [done|].
          destruct (Rle_dec (- (PI / 2)) t).
          - assert (0 <= cos t) by (apply cos_ge_0; lra). lra.
          - assert (sin t < 0) by (apply sin_lt_0_var; lra). lra. }
        replace (sin t / cos t) with (tan (t - PI)).
        2:{ assert (Hs1 : sin t = - sin (t - PI))
              by (rewrite <- neg_sin; f_equal; ring).
            assert (Hc1 : cos t = - cos (t - PI))
              by (rewrite <- neg_cos; f_equal; ring).
            unfold tan. rewrite Hs1, Hc1. field. lra. }
        rewrite atan_tan by lra. ring.
      * assert (Ht : t < - (PI / 2)).
        { destruct (Rlt_dec t (- (PI / 2))) as [|Hn]; [done|].
          destruct (Rle_dec t (PI / 2)).
          - assert (0 <= cos t) by (apply cos_ge_0; lra). lra.
          - assert (0 <= sin t) by (apply sin_ge_0; lra). lra. }
        replace (sin t / cos t) with (tan (t + PI)).
        2:{ unfold tan. rewrite neg_sin, neg_cos. field. lra. }
        rewrite atan_tan by lra. ring.
    + assert (Hz : cos t = 0) by lra.
      assert (Hcases : t = PI / 2 \/ t = - (PI / 2)).
      { destruct (Rlt_dec t (PI / 2)) as [Ha|Ha].
        - destruct (Rlt_dec (- (PI / 2)) t) as [Hb|Hb].
          + assert (0 < cos t) by (apply cos_gt_0; lra). lra.
          + destruct (Rlt_dec t (- (PI / 2))) as [Hd|Hd]; [|right; lra].
            assert (cos (- t) < 0) by (apply cos_lt_0; lra).
            rewrite cos_neg in *. lra.
        - destruct (Rlt_dec (PI / 2) t) as [Hd|Hd]; [|left; lra].
          assert (cos t < 0) by (apply cos_lt_0; lra). lra. }
      destruct Hcases as [-> | ->].
      * rewrite sin_PI2. case_Rdec; [done | lra].
      * rewrite sin_neg, sin_PI2.
        case_Rdec; [lra|]. case_Rdec; [done | lra].
Qed.



Lemma hypot_polar (r t : R) : 0 <= r -> hypot (r * cos t) (r * sin t) = r.
Proof.
  intros Hr. unfold hypot.
  replace (r * cos t * (r * cos t) + r * sin t * (r * sin t))
    with (r * r * (Rsqr (sin t) + Rsqr (cos t))) by (unfold Rsqr; ring).
  rewrite sin2_cos2, Rmult_1_r. by apply sqrt_square.
Qed.

Lemma hypot_nonneg (x y : R) : 0 <= hypot x y.
Proof. apply sqrt_pos. Qed.

Lemma hypot_zero (x y : R) : hypot x y = 0 -> x = 0 /\ y = 0.
Proof.
  unfold hypot. intros H. apply sqrt_eq_0 in H; [|nra]. split; nra.
Qed.

(** The wrapped difference is the representative in (-PI, PI]. *)
Lemma wrap_repr (t : R) :
  - (2 * PI) < t < 2 * PI ->
  exists k : Z, (-1 <= k <= 1)%Z /\
    - PI < t + 2 * IZR k * PI <= PI /\
    atan2 (sin t) (cos t) = t + 2 * IZR k * PI.
Proof.
  intros [Hl Hu]. pose proof PI_pos.
  destruct (Rle_dec t (- PI)) as [H1|H1].
  - exists 1%Z. split; [lia|]. split; [lra|].
    rewrite <- (sin_shift_up t), <- (cos_shift_up t).
    rewrite atan2_sin_cos by lra. ring.
  - destruct (Rle_dec t PI) as [H2|H2].
    + exists 0%Z. split; [lia|]. split; [lra|].
      rewrite atan2_sin_cos by lra. ring.
    + exists (-1)%Z. split; [lia|]. split; [lra|].
      rewrite <- (sin_shift_down t), <- (cos_shift_down t).
      rewrite atan2_sin_cos by lra. ring.
Qed.

Lemma atan2_range (y x : R) : - PI < atan2 y x <= PI.
Proof.
  pose proof PI_pos. unfold atan2.
  pose proof (atan_bound (y / x)) as [Hlo Hhi].
  repeat case_Rdec; try lra.
  - assert (y / x <= 0).
    { unfold Rdiv. assert (/ x < 0) by (by apply Rinv_lt_0_compat). nra. }
    assert (atan (y / x) <= 0).
    { destruct (Req_dec (y / x) 0) as [-> | ]; [rewrite atan_0; lra|].
      rewrite <- atan_0. left. apply atan_increasing. lra. }
    lra.
  - assert (0 < y / x).
    { unfold Rdiv. assert (/ x < 0) by (by apply Rinv_lt_0_compat). nra. }
    assert (0 < atan (y / x)) by (rewrite <- atan_0; by apply atan_increasing).
    lra.
Qed.

Lemma snaps_range (a : R) : a ∈ snaps -> - PI < a <= PI.
Proof.
  pose proof PI_pos. unfold snaps. rewrite !elem_of_cons.
  intros [-> | [-> | [-> | [-> | [-> | [-> | [-> | [-> | Hnil]]]]]]]]; try lra.
  by apply elem_of_nil in Hnil.
Qed.


(** [snapDist] is the angle between the two directions. *)
Lemma snapDist_angle (angle a : R) :
  - PI < angle <= PI -> a ∈ snaps ->
  exists k : Z, (-1 <= k <= 1)%Z /\
    - PI < angle - a + 2 * IZR k * PI <= PI /\
    snapDist angle a = Rabs (angle - a + 2 * IZR k * PI).
Proof.
  intros Hang Ha. apply snaps_range in Ha.
  destruct (wrap_repr (angle - a)) as (k & Hk & Hr & Heq); [lra|].
  exists k. unfold snapDist. by rewrite Heq.
Qed.



Lemma snapLoop_spec (angle : R) (cands : list R) (best : R) (min : option R) :
  let r := snapLoop angle cands best min in
  (r = best /\
   match min with
   | Some m => Forall (fun a => m <= snapDist angle a) cands
   | None => cands = []
   end) \/
  (r ∈ cands /\
   Forall (fun a => snapDist angle r <= snapDist angle a) cands /\
   match min with Some m => snapDist angle r < m | None => True end).
Proof.
  revert best min. induction cands as [|a rest IH]; intros best min; cbn.
  - left. split; [done|]. by destruct min.
  - destruct min as [m|].
    + destruct (Rlt_dec (snapDist angle a) m) as [Hlt|Hge].
      * right. destruct (IH a (Some (snapDist angle a))) as [[-> Hall] | (Hin & Hall & Hlt')].
        -- split; [apply elem_of_cons; by left|]. split; [|done].
           constructor; [lra | done].
        -- split; [apply elem_of_cons; by right|]. split; [|lra].
           constructor; [lra | done].
      * destruct (IH best (Some m)) as [[-> Hall] | (Hin & Hall & Hlt')].
        -- left. split; [done|]. constructor; [lra | done].
        -- right. split; [apply elem_of_cons; by right|]. split; [|done].
           constructor; [lra | done].
    + right. destruct (IH a (Some (snapDist angle a))) as [[-> Hall] | (Hin & Hall & Hlt')].
      * split; [apply elem_of_cons; by left|]. split; [|done].
        constructor; [lra | done].
      * split; [apply elem_of_cons; by right|]. split; [|done].
        constructor; [lra | done].
Qed.

Lemma snapAngle_nearest (angle : R) :
  snapAngle angle ∈ snaps /\
  forall a, a ∈ snaps -> snapDist angle (snapAngle angle) <= snapDist angle a.
Proof.
  unfold snapAngle.
  destruct (snapLoop_spec angle snaps 0 None) as [[_ Hnil]|(Hin & Hall & _)].
  - discriminate Hnil.
  - split; [done|]. intros a Ha. rewrite Forall_forall in Hall. by apply Hall.
Qed.


Lemma snapDist_direct (angle a : R) :
  - PI < angle - a <= PI -> snapDist angle a = Rabs (angle - a).
Proof. intros H. unfold snapDist. by rewrite atan2_sin_cos. Qed.

(** atan2(4, 10) is about 21.8 degrees: positive and less than 22.5. *)
Lemma atan_2_5_bounds : 0 < atan (2 / 5) < PI / 8.
Proof.
  pose proof PI_pos as HPI.
  set (th := atan (2 / 5)).
  assert (H0 : 0 < th) by (unfold th; rewrite <- atan_0; apply atan_increasing; lra).
  assert (H1 : th < PI / 4) by (unfold th; rewrite <- atan_1; apply atan_increasing; lra).
  split; [done|].
  destruct (Rlt_dec th (PI / 8)) as [|Hge]; [done | exfalso].
  assert (Hc : 0 < cos th) by (apply cos_gt_0; lra).
  assert (Hs : sin th = 2 / 5 * cos th).
  { assert (Ht : tan th = 2 / 5) by apply tan_atan.
    unfold tan in Ht. apply (f_equal (fun v => v * cos th)) in Ht.
    rewrite <- Ht. field. lra. }
  assert (Htan : tan (2 * th) = 20 / 21).
  { unfold tan. rewrite sin_2a, cos_2a, Hs. field. nra. }
  destruct (Req_dec (2 * th) (PI / 4)) as [Heq|Hne].
  - rewrite Heq, tan_PI4 in Htan. lra.
  - assert (tan (PI / 4) < tan (2 * th)) by (apply tan_increasing; lra).
    rewrite tan_PI4 in *. lra.
Qed.

Lemma atan2_4_10 : atan2 (4 - 0) (10 - 0) = atan (2 / 5).
Proof.
  unfold atan2. case_Rdec; [|lra]. f_equal. lra.
Qed.

Lemma snapAngle_4_10 : snapAngle (atan2 (4 - 0) (10 - 0)) = 0.
Proof.
  rewrite atan2_4_10.
  pose proof atan_2_5_bounds as [H0 H8]. pose proof PI_pos as HPI.
  destruct (snapAngle_nearest (atan (2 / 5))) as [Hin Hmin].
  assert (H0in : 0 ∈ snaps) by (unfold snaps; apply elem_of_cons; by left).
  specialize (Hmin 0 H0in).
  rewrite (snapDist_direct _ 0) in Hmin by lra.
  revert Hin Hmin. generalize (snapAngle (atan (2 / 5))) as r. intros r Hin Hmin.
  unfold snaps in Hin. rewrite !elem_of_cons in Hin.
  destruct Hin as [-> | [-> | [-> | [-> | [-> | [-> | [-> | [-> | Hnil]]]]]]]];
    [reflexivity | exfalso .. |];
    [rewrite snapDist_direct in Hmin by lra;
     unfold Rabs in Hmin; repeat destruct (Rcase_abs _) in Hmin; lra .. |].
  by apply elem_of_nil in Hnil.
Qed.

Lemma sqrt_116_gt_10 : 10 < sqrt 116.
Proof.
  rewrite <- (sqrt_square 10) at 1 by lra. apply sqrt_lt_1; lra.
Qed.

End Snapping.

(** ** Shape constraint *)

Section ShapeConstraint.
Local Open Scope R_scope.

Lemma snaps_eight (a : R) :
  a ∈ snaps <-> exists k : Z, (-3 <= k <= 4)%Z /\ a = IZR k * (PI / 4).
Proof.
  unfold snaps. rewrite !elem_of_cons. split.
  - intros [-> | [-> | [-> | [-> | [-> | [-> | [-> | [-> | Hnil]]]]]]]].
    + exists 0%Z. split; [lia | lra].
    + exists 1%Z. split; [lia | lra].
    + exists 2%Z. split; [lia | lra].
    + exists 3%Z. split; [lia | lra].
    + exists 4%Z. split; [lia | lra].
    + exists (-1)%Z. split; [lia | lra].
    + exists (-2)%Z. split; [lia | lra].
    + exists (-3)%Z. split; [lia | lra].
    + by apply elem_of_nil in Hnil.
  - intros (k & Hk & ->).
    assert (k = -3 \/ k = -2 \/ k = -1 \/ k = 0 \/ k = 1 \/ k = 2 \/ k = 3 \/ k = 4)%Z
      as [-> | [-> | [-> | [-> | [-> | [-> | [-> | ->]]]]]]] by lia.
    + do 7 right. left. lra.
    + do 6 right. left. lra.
    + do 5 right. left. lra.
    + left. lra.
    + do 1 right. left. lra.
    + do 2 right. left. lra.
    + do 3 right. left. lra.
    + do 4 right. left. lra.
Qed.

Lemma constrain_line (shape : ShapeOp.t) :
  ShapeOp.shape shape = line ->
  constrainWithShift shape true =
    let dx := ShapeOp.x1 shape - ShapeOp.x0 shape in
    let dy := ShapeOp.y1 shape - ShapeOp.y0 shape in
    let best := snapAngle (atan2 dy dx) in
    with_end shape (ShapeOp.x0 shape + hypot dx dy * cos best)
      (ShapeOp.y0 shape + hypot dx dy * sin best).
Proof. intros H. unfold constrainWithShift. cbn. by rewrite H. Qed.


Lemma line_example_end :
  constrainWithShift lineExample true = with_end lineExample (sqrt 116) 0.
Proof.
  rewrite constrain_line by reflexivity.
  unfold lineExample. cbv zeta.
  cbn [ShapeOp.x0 ShapeOp.x1 ShapeOp.y0 ShapeOp.y1].
  rewrite snapAngle_4_10, cos_0, sin_0. unfold with_end.
  cbn [ShapeOp.x0 ShapeOp.y0 ShapeOp.shape ShapeOp.color ShapeOp.size
       ShapeOp.alpha ShapeOp.composite ShapeOp.layer].
  f_equal.
  - unfold hypot. replace ((10 - 0) * (10 - 0) + (4 - 0) * (4 - 0)) with 116 by lra.
    lra.
  - lra.
Qed.

(** C3, as amended.  With the constraint active, a line is turned about
    its start point onto the nearest of eight directions spaced 45 degrees
    apart (the multiples k * PI/4, k from -3 to 4) and keeps its length: the
    new end point is start + length * (cos, sin) of the snapped angle, and no
    other field changes.  Nearest is measured by [snapDist], the absolute
    value of the angle difference brought back into (-PI, PI].  In
    particular the line from (0,0) to (10,4) snaps to angle 0 and its new end
    point is (sqrt 116, 0), about (10.77, 0). *)
Theorem line_snapping (shape : ShapeOp.t) :
  ShapeOp.shape shape = line ->
  let dx := ShapeOp.x1 shape - ShapeOp.x0 shape in
  let dy := ShapeOp.y1 shape - ShapeOp.y0 shape in
  let angle := atan2 dy dx in
  let len := hypot dx dy in
  let best := snapAngle angle in
  let r := constrainWithShift shape true in
  (forall a, a ∈ snaps <-> exists k : Z, (-3 <= k <= 4)%Z /\ a = IZR k * (PI / 4)) /\
  best ∈ snaps /\
  (forall a, a ∈ snaps -> snapDist angle best <= snapDist angle a) /\
  (forall a, a ∈ snaps ->
     exists k : Z, (-1 <= k <= 1)%Z /\
       - PI < angle - a + 2 * IZR k * PI <= PI /\
       snapDist angle a = Rabs (angle - a + 2 * IZR k * PI)) /\
  r = with_end shape (ShapeOp.x0 shape + len * cos best)
        (ShapeOp.y0 shape + len * sin best) /\
  hypot (ShapeOp.x1 r - ShapeOp.x0 r) (ShapeOp.y1 r - ShapeOp.y0 r) = len /\
  snapAngle (atan2 (4 - 0) (10 - 0)) = 0 /\
  constrainWithShift lineExample true = with_end lineExample (sqrt 116) 0 /\
  10 < sqrt 116 < 11.
Proof.
  intros Hline dx dy angle len best r.
  split; [exact snaps_eight|].
  destruct (snapAngle_nearest angle) as [Hin Hmin].
  split; [exact Hin|]. split; [exact Hmin|].
  split; [intros a Ha; apply snapDist_angle; [apply atan2_range | exact Ha]|].
  assert (Hr : r = with_end shape (ShapeOp.x0 shape + len * cos best)
                     (ShapeOp.y0 shape + len * sin best))
    by (unfold r; by rewrite constrain_line).
  split; [exact Hr|]. split.
  - rewrite Hr. unfold with_end.
    cbn [ShapeOp.x0 ShapeOp.x1 ShapeOp.y0 ShapeOp.y1].
    replace (ShapeOp.x0 shape + len * cos best - ShapeOp.x0 shape)
      with (len * cos best) by ring.
    replace (ShapeOp.y0 shape + len * sin best - ShapeOp.y0 shape)
      with (len * sin best) by ring.
    apply hypot_polar, hypot_nonneg.
  - split; [exact snapAngle_4_10|]. split; [exact line_example_end|].
    split; [exact sqrt_116_gt_10|].
    rewrite <- (sqrt_square 11) by lra. apply sqrt_lt_1; lra.
Qed.

Lemma line_snapping_witness :
  hypot (ShapeOp.x1 (constrainWithShift lineExample true) - 0)
        (ShapeOp.y1 (constrainWithShift lineExample true) - 0)
  = hypot (10 - 0) (4 - 0).
Proof.
  exact (proj1 (proj2 (proj2 (proj2 (proj2 (proj2
           (line_snapping lineExample eq_refl))))))).
Defined.

(** C3 as stated fails on its own example: the line from (0,0) to (10,4)
    does not end at (10,0) after snapping; its end lies at x = sqrt 116,
    beyond 10, because the length sqrt 116 is kept. *)
Lemma line_snapping_counterexample :
  ShapeOp.x1 (constrainWithShift lineExample true) <> 10 /\
  ShapeOp.x1 (constrainWithShift lineExample true) = sqrt 116 /\
  ShapeOp.y1 (constrainWithShift lineExample true) = 0 /\
  hypot (10 - 0) (4 - 0) <> 10.
Proof.
  rewrite line_example_end. unfold with_end.
  cbn [ShapeOp.x1 ShapeOp.y1]. pose proof sqrt_116_gt_10.
  repeat split; try lra.
  unfold hypot. replace ((10 - 0) * (10 - 0) + (4 - 0) * (4 - 0)) with 116 by lra.
  lra.
Qed.













End ShapeConstraint.

(** ** Stroke capture *)

Section Capture.

Lemma getPos_canvas (e : PointerEvent.t) (s1 s2 : State) :
  canvasRef s1 = canvasRef s2 -> getPos e s1 = getPos e s2.
Proof. intros H. unfold getPos. by rewrite H. Qed.

Lemma with_points_twice (st : StrokeOp.t) (p q : list Point) :
  with_points (with_points st p) q = with_points st q.
Proof. reflexivity. Qed.

Lemma moves_capture (es : list PointerEvent.t) (s1 : State) (h : list Op)
    (r : oid) (st : StrokeOp.t) :
  isDrawing s1 = true -> currentStroke s1 = Some r ->
  last (ops s1) = Some r -> heap s1 = h ++ [Stroke st] -> r = length h ->
  let s2 := fold_left (fun s e => pointerMove e s) es s1 in
  heap s2 = h ++ [Stroke (with_points st
                   (StrokeOp.points st ++ map (fun e => getPos e s1) es))] /\
  ops s2 = ops s1 /\ redo s2 = redo s1 /\ isDrawing s2 = true /\
  currentStroke s2 = Some r /\ currentShape s2 = currentShape s1 /\
  canvasRef s2 = canvasRef s1.
Proof.
  revert s1 st. induction es as [|e es IH]; intros s1 st Hd Hc Hl Hh Hr; cbn [fold_left map].
  - rewrite app_nil_r. destruct st; by repeat split.
  - assert (Hlook : heap s1 !! r = Some (Stroke st)).
    { rewrite Hh, Hr, lookup_app_r, Nat.sub_diag by lia. reflexivity. }
    assert (Hmove : pointerMove e s1 =
              setHeap (h ++ [Stroke (with_points st (StrokeOp.points st ++ [getPos e s1]))]) s1).
    { unfold pointerMove. rewrite Hd, Hc, Hl, Hlook. cbn [negb]. f_equal.
      rewrite Hh, Hr.
      replace (length h) with (length h + 0) at 1 by lia.
      rewrite insert_app_r. reflexivity. }
    rewrite Hmove.
    destruct (IH (setHeap (h ++ [Stroke (with_points st (StrokeOp.points st ++ [getPos e s1]))]) s1)
                (with_points st (StrokeOp.points st ++ [getPos e s1])))
      as (H1 & H2 & H3 & H4 & H5 & H6 & H7); try done.
    rewrite H1, H2, H3, H4, H5, H6, H7. cbn [ops redo canvasRef currentShape setHeap].
    repeat split. cbn [StrokeOp.points with_points].
    by rewrite <- app_assoc.
Qed.

Lemma free_not_text (t : Tool) : t ∈ FREEHAND_TOOLS -> t <> TEXT.
Proof.
  unfold FREEHAND_TOOLS. rewrite !elem_of_cons.
  intros [-> | [-> | [-> | Hnil]]]; try discriminate. by apply elem_of_nil in Hnil.
Qed.

Lemma pointerDown_freehand (e : PointerEvent.t) (s : State) :
  PointerEvent.button e = 0%Z -> tool s ∈ FREEHAND_TOOLS ->
  pointerDown e s =
    setOps (ops s ++ [length (heap s)])
      (setCurrentStroke (Some (length (heap s)))
         (setHeap (heap s ++ [Stroke (startedStroke e s)])
            (setIsDrawing true (setRedo [] s)))).
Proof.
  intros Hb Hf. rewrite (pointerDown_primary e s Hb). cbv zeta.
  rewrite decide_False by (by apply free_not_text).
  rewrite bool_decide_eq_true_2 by done. reflexivity.
Qed.

Lemma drawing_heap :
  heap drawing =
    [Stroke (with_points (startedStroke press (initialState (Some canvas0)))
               [getPos press (initialState (Some canvas0));
                getPos move1 (pointerDown press (initialState (Some canvas0)));
                getPos move2 (pointerDown press (initialState (Some canvas0)))])] /\
  currentStroke drawing = Some 0%nat.
Proof. split; [vm_compute; reflexivity | reflexivity]. Qed.

Lemma drawing_lookup :
  heap drawing !! 0%nat =
    Some (Stroke (with_points (startedStroke press (initialState (Some canvas0)))
                    [getPos press (initialState (Some canvas0));
                     getPos move1 (pointerDown press (initialState (Some canvas0)));
                     getPos move2 (pointerDown press (initialState (Some canvas0)))])).
Proof. by rewrite (proj1 drawing_heap). Qed.

End Capture.

(** ** Stroke simplification *)

Section Simplification.
Local Open Scope R_scope.

Lemma distSq_nonneg (p a b : Point) : 0 <= distSqToSegment p a b.
Proof.
  unfold distSqToSegment, sq. cbv zeta.
  repeat case_Rdec;
    match goal with
    | |- 0 <= ?x * ?x + ?y * ?y =>
        pose proof (Rle_0_sqr x); pose proof (Rle_0_sqr y); unfold Rsqr in *; lra
    end.
Qed.

Lemma lenSq_nonneg (a b : Point) : 0 <= lenSq a b.
Proof.
  unfold lenSq, sq.
  pose proof (Rle_0_sqr (px b - px a)). pose proof (Rle_0_sqr (py b - py a)).
  unfold Rsqr in *. lra.
Qed.

Lemma cross_le_dist (p a b : Point) :
  crossSq p a b <= distSqToSegment p a b * lenSq a b.
Proof.
  unfold crossSq, distSqToSegment, lenSq, sq. cbv zeta.
  set (vx := px b - px a). set (vy := py b - py a).
  set (wx := px p - px a). set (wy := py p - py a).
  destruct (Rle_dec (vx * wx + vy * wy) 0) as [H1|H1].
  - nra.
  - destruct (Rle_dec (vx * vx + vy * vy) (vx * wx + vy * wy)) as [H2|H2].
    + replace (px p - px b) with (wx - vx) by (unfold wx, vx; ring).
      replace (py p - py b) with (wy - vy) by (unfold wy, vy; ring).
      nra.
    + set (c1 := vx * wx + vy * wy) in *. set (c2 := vx * vx + vy * vy) in *.
      set (t := c1 / c2).
      assert (Ht : t * c2 = c1) by (unfold t; field; lra).
      replace (px p - (px a + t * vx)) with (wx - t * vx) by (unfold wx; ring).
      replace (py p - (py a + t * vy)) with (wy - t * vy) by (unfold wy; ring).
      replace (((wx - t * vx) * (wx - t * vx) + (wy - t * vy) * (wy - t * vy)) * c2)
        with ((wx * wx + wy * wy) * c2 - 2 * (t * c2) * c1 + (t * c2) * (t * c2))
        by (unfold c1, c2; ring).
      rewrite Ht. unfold c1, c2. nra.
Qed.

Lemma farthest_spec (a b : Point) (ps : list Point) (i : nat) (dmax : R) (idx : nat) :
  dmax <= (farthest a b ps i dmax idx).1 /\
  Forall (fun p => distSqToSegment p a b <= (farthest a b ps i dmax idx).1) ps /\
  ((farthest a b ps i dmax idx = (dmax, idx)) \/
   (dmax < (farthest a b ps i dmax idx).1 /\
    (i <= (farthest a b ps i dmax idx).2 < i + length ps)%nat)).
Proof.
  revert i dmax idx. induction ps as [|p ps IH]; intros i dmax idx; cbn [farthest].
  - cbn. split; [lra|]. split; [constructor|]. by left.
  - cbv zeta. destruct (Rgt_dec (distSqToSegment p a b) dmax) as [Hgt|Hle].
    + destruct (IH (S i) (distSqToSegment p a b) i) as (H1 & H2 & H3).
      split; [lra|]. split; [constructor; [lra | done]|].
      right. split; [lra|]. destruct H3 as [-> | [_ H3]]; cbn; lia.
    + destruct (IH (S i) dmax idx) as (H1 & H2 & H3).
      split; [done|]. split; [constructor; [lra | done]|].
      destruct H3 as [H3 | [H3 H4]]; [by left|].
      right. split; [done|]. cbn. lia.
Qed.

Lemma ends_decompose (pts : list Point) :
  (2 <= length pts)%nat ->
  exists a mid b, pts = a :: mid ++ [b] /\ head pts = Some a /\
    last pts = Some b /\ interior pts = mid.
Proof.
  intros Hlen. destruct pts as [|a rest]; [cbn in Hlen; lia|].
  destruct (exists_last (l := rest)) as (mid & b & ->).
  { intros ->. cbn in Hlen. lia. }
  exists a, mid, b. split; [done|]. split; [done|]. split.
  - by rewrite app_comm_cons, last_snoc.
  - unfold interior. change (drop 1 (a :: mid ++ [b])) with (mid ++ [b]).
    cbn [length]. rewrite length_app. cbn [length].
    replace (S (length mid + 1) - 2)%nat with (length mid) by lia.
    by rewrite take_app_length.
Qed.

Lemma last_kept_unchunk (a : Point) (chunks : list (list Point * Point)) :
  last (unchunk a chunks) = last (kept a chunks).
Proof.
  revert a. induction chunks as [|[mid b] rest IH]; intros a; [done|].
  cbn [unchunk kept map snd].
  change (a :: mid ++ unchunk b rest) with ((a :: mid) ++ unchunk b rest).
  specialize (IH b). unfold kept in IH.
  destruct (unchunk b rest) as [|u us] eqn:Hu.
  { destruct rest as [|[? ?] ?]; discriminate Hu. }
  rewrite last_app_cons, IH. done.
Qed.

Lemma head_unchunk (a : Point) (chunks : list (list Point * Point)) :
  head (unchunk a chunks) = Some a.
Proof. by destruct chunks as [|[mid b] rest]. Qed.

Lemma unchunk_app (a m : Point) (c1 c2 : list (list Point * Point)) :
  last (kept a c1) = Some m ->
  unchunk a (c1 ++ c2) = removelast (unchunk a c1) ++ unchunk m c2.
Proof.
  revert a. induction c1 as [|[mid b] rest IH]; intros a Hl.
  - cbn in Hl. inversion Hl; subst. reflexivity.
  - cbn [app unchunk].
    assert (Hl' : last (kept b rest) = Some m) by (by cbn in Hl |- *).
    rewrite (IH b Hl').
    change (a :: mid ++ unchunk b rest) with ((a :: mid) ++ unchunk b rest).
    rewrite removelast_app.
    2:{ destruct rest as [|[? ?] ?]; discriminate. }
    by rewrite <- app_assoc.
Qed.

Lemma kept_app (a m : Point) (c1 c2 : list (list Point * Point)) :
  last (kept a c1) = Some m ->
  kept a (c1 ++ c2) = removelast (kept a c1) ++ kept m c2.
Proof.
  revert a. induction c1 as [|[mid b] rest IH]; intros a Hl.
  - cbn in Hl. inversion Hl; subst. reflexivity.
  - assert (Hl' : last (kept b rest) = Some m) by (by cbn in Hl |- *).
    specialize (IH b Hl'). unfold kept in *. cbn [app map snd] in *.
    rewrite IH. reflexivity.
Qed.

Lemma within_app (e : R) (a m : Point) (c1 c2 : list (list Point * Point)) :
  last (kept a c1) = Some m ->
  withinTolerance e a c1 -> withinTolerance e m c2 ->
  withinTolerance e a (c1 ++ c2).
Proof.
  revert a. induction c1 as [|[mid b] rest IH]; intros a Hl H1 H2.
  - cbn in Hl. inversion Hl; subst. exact H2.
  - assert (Hl' : last (kept b rest) = Some m) by (by cbn in Hl |- *).
    cbn in H1 |- *. destruct H1 as [Hmid Hrest]. split; [done|]. by apply IH.
Qed.

Lemma kept_sublist (a : Point) (chunks : list (list Point * Point)) :
  sublist (kept a chunks) (unchunk a chunks).
Proof.
  revert a. induction chunks as [|[mid b] rest IH]; intros a.
  - reflexivity.
  - cbn. apply sublist_skip. apply sublist_inserts_l. apply IH.
Qed.

Lemma rdp_spec (fuel : nat) (pts : list Point) (e : R) :
  0 <= e -> (2 <= length pts <= fuel + 1)%nat ->
  exists a chunks,
    chunks <> [] /\ pts = unchunk a chunks /\
    rdp fuel pts e = Some (kept a chunks) /\ withinTolerance e a chunks.
Proof.
  intros He. revert pts.
  induction fuel as [|fuel IH]; intros pts [Hlo Hhi]; [lia|].
  destruct (ends_decompose pts Hlo) as (a & mid & b & Hpts & Hhead & Hlast & Hint).
  cbn [rdp]. rewrite Hhead, Hlast, Hint.
  pose proof (farthest_spec a b mid 1 0 0) as (H1 & H2 & H3).
  destruct (farthest a b mid 1 0 0) as [dmax idx] eqn:Hf. cbn [fst snd] in *.
  assert (Hn : length pts = (length mid + 2)%nat).
  { rewrite Hpts. cbn [length]. rewrite length_app. cbn [length]. lia. }
  destruct (Rgt_dec dmax e) as [Hgt|Hle].
  - destruct H3 as [Heq | [Hlt Hidx]]; [inversion Heq; lra|].
    destruct (IH (take (idx + 1) pts)) as (a1 & c1 & Hc1 & Hu1 & Hr1 & Hw1).
    { rewrite length_take. lia. }
    destruct (IH (drop idx pts)) as (a2 & c2 & Hc2 & Hu2 & Hr2 & Hw2).
    { rewrite length_drop. lia. }
    rewrite Hr1, Hr2.
    assert (Hm : last (kept a1 c1) = Some a2).
    { rewrite <- last_kept_unchunk, <- Hu1.
      rewrite last_lookup, length_take.
      assert (Init.Nat.pred ((idx + 1) `min` length pts) = idx) as -> by lia.
      rewrite lookup_take_lt by lia.
      pose proof (head_unchunk a2 c2) as Hh. rewrite <- Hu2 in Hh.
      rewrite head_lookup, lookup_drop in Hh.
      by rewrite Nat.add_0_r in Hh. }
    exists a1, (c1 ++ c2). split; [by destruct c1|]. split; [|split].
    + rewrite (unchunk_app a1 a2) by done. rewrite <- Hu1, <- Hu2.
      rewrite Nat.add_1_r, removelast_firstn by lia.
      by rewrite take_drop.
    + by rewrite (kept_app a1 a2).
    + by apply (within_app e a1 a2).
  - exists a, [(mid, b)]. split; [done|]. split; [done|]. split; [done|].
    cbn. split; [|done].
    rewrite Forall_forall in H2 |- *. intros p Hp. specialize (H2 p Hp).
    split; [lra|].
    pose proof (cross_le_dist p a b). pose proof (lenSq_nonneg a b).
    pose proof (distSq_nonneg p a b). nra.
Qed.

Lemma simplifyRDP_spec (points : list Point) (epsilon : R) :
  (3 <= length points)%nat ->
  exists a chunks,
    points = unchunk a chunks /\
    simplifyRDP points epsilon = Some (kept a chunks) /\
    withinTolerance (epsilon * epsilon) a chunks.
Proof.
  intros Hlen. unfold simplifyRDP.
  destruct (Nat.ltb_spec (length points) 3) as [|_]; [lia|].
  destruct (rdp_spec (length points) points (epsilon * epsilon))
    as (a & chunks & _ & H1 & H2 & H3); [nra | lia |].
  by exists a, chunks.
Qed.

Lemma simplifyRDP_short (points : list Point) (epsilon : R) :
  (length points < 3)%nat -> simplifyRDP points epsilon = Some points.
Proof.
  intros Hlen. unfold simplifyRDP.
  by destruct (Nat.ltb_spec (length points) 3) as [_|]; [|lia].
Qed.

Lemma zig1 : distSqToSegment (mkPoint 1 0.1 None) (mkPoint 0 0 None) (mkPoint 3 0 None) = 0.01.
Proof.
  unfold distSqToSegment, sq. cbn [px py]. cbv zeta.
  repeat case_Rdec; lra.
Qed.
Lemma zig2 : distSqToSegment (mkPoint 2 (-0.1) None) (mkPoint 0 0 None) (mkPoint 3 0 None) = 0.01.
Proof.
  unfold distSqToSegment, sq. cbn [px py]. cbv zeta.
  repeat case_Rdec; lra.
Qed.

Lemma zigzag_simplified :
  simplifyRDP zigzag 0.5 = Some [mkPoint 0 0 None; mkPoint 3 0 None].
Proof.
  change (simplifyRDP zigzag 0.5) with (rdp 4 zigzag (0.5 * 0.5)).
  cbn [rdp].
  change (head zigzag) with (Some (mkPoint 0 0 None)).
  change (last zigzag) with (Some (mkPoint 3 0 None)).
  change (interior zigzag) with [mkPoint 1 0.1 None; mkPoint 2 (-0.1) None].
  cbn [farthest]. rewrite zig1, zig2. cbv zeta.
  repeat (case_Rdec; try lra); reflexivity.
Qed.

Lemma simplifyRDP_total (points : list Point) (epsilon : R) :
  exists out, simplifyRDP points epsilon = Some out /\ sublist out points.
Proof.
  destruct (Nat.lt_ge_cases (length points) 3) as [Hs|Hl].
  - exists points. split; [by apply simplifyRDP_short | reflexivity].
  - destruct (simplifyRDP_spec points epsilon Hl) as (a & chunks & Hp & Hr & _).
    exists (kept a chunks). split; [done|]. rewrite Hp. apply kept_sublist.
Qed.

(** A movement while a stroke is captured adds its point to the last
    document entry in place: the stroke read later through [currentStroke]
    is the same object and has the point too. *)
Lemma pointerMove_push (e : PointerEvent.t) (s : State) (r0 r : oid) (st : StrokeOp.t) :
  isDrawing s = true -> currentStroke s = Some r0 ->
  last (ops s) = Some r -> heap s !! r = Some (Stroke st) ->
  heap (pointerMove e s) !! r =
    Some (Stroke (with_points st (StrokeOp.points st ++ [getPos e s]))) /\
  ops (pointerMove e s) = ops s /\
  currentStroke (pointerMove e s) = Some r0.
Proof.
  intros Hd Hc Hl Hh. unfold pointerMove. rewrite Hd, Hc, Hl, Hh.
  cbn [negb heap ops currentStroke setHeap]. split; [|by split].
  apply list_lookup_insert_eq. by eapply lookup_lt_Some.
Qed.

Lemma drawing_points :
  exists st, heap drawing !! 0%nat = Some (Stroke st) /\
    length (StrokeOp.points st) = 3%nat /\ currentStroke drawing = Some 0%nat.
Proof.
  eexists. split; [exact drawing_lookup|].
  split; [reflexivity | exact (proj2 drawing_heap)].
Qed.

(** C4. The simplifier always returns; what it returns consists of
    vertices of the input, in their order.  An input of fewer than three
    points is returned as it is.  An input of three or more is cut at the
    vertices that are kept so that every discarded vertex lies within
    tolerance of the kept segment that encloses it: its squared distance from
    that segment, as [distSqToSegment] computes it, is at most epsilon
    squared, and so is its squared perpendicular distance from the line
    through the segment.  On pointer-up with a stroke in progress the handler
    returns; when the stroke is marked smooth the simplifier is run on its
    points with epsilon = 0.9 and, the stroke still being the last document
    entry, its points are replaced by the result; when it is not marked
    smooth no Op object changes. *)
Theorem rdp_bound :
  (forall (points : list Point) (epsilon : R),
     exists out, simplifyRDP points epsilon = Some out /\
       sublist out points /\
       ((length points < 3)%nat -> out = points) /\
       ((3 <= length points)%nat ->
          exists a chunks,
            points = unchunk a chunks /\ out = kept a chunks /\
            withinTolerance (epsilon * epsilon) a chunks)) /\
  (forall (s : State) (r : oid) (st : StrokeOp.t),
     currentStroke s = Some r -> heap s !! r = Some (Stroke st) ->
     exists s', pointerUp s = Some s' /\
       ops s' = ops s /\ currentStroke s' = None /\ isDrawing s' = false /\
       (StrokeOp.smooth st = true ->
          exists simplified,
            simplifyRDP (StrokeOp.points st) 0.9 = Some simplified /\
            (last (ops s) = Some r ->
               heap s' !! r = Some (Stroke (with_points st simplified)) /\
               (forall r', r' <> r -> heap s' !! r' = heap s !! r')) /\
            (last (ops s) <> Some r -> heap s' = heap s)) /\
       (StrokeOp.smooth st = false -> heap s' = heap s)).
Proof.
  split.
  - intros points epsilon.
    destruct (simplifyRDP_total points epsilon) as (out & Hout & Hsub).
    exists out. split; [done|]. split; [done|]. split.
    + intros Hs. rewrite simplifyRDP_short in Hout by done. by inversion Hout.
    + intros Hl.
      destruct (simplifyRDP_spec points epsilon Hl) as (a & chunks & Hp & Hr & Hw).
      exists a, chunks. rewrite Hr in Hout. inversion Hout. by repeat split.
  - intros s r st Hcur Hheap. unfold pointerUp. rewrite Hcur, Hheap.
    destruct (StrokeOp.smooth st) eqn:Hsm.
    + destruct (simplifyRDP_total (StrokeOp.points st) 0.9) as (out & Hout & _).
      rewrite Hout. eexists. split; [reflexivity|].
      split; [by case_decide|]. split; [by case_decide|]. split; [by case_decide|].
      split; [|done].
      intros _. exists out. split; [done|]. split.
      * intros Hlast. rewrite decide_True by done. cbn [heap setHeap]. split.
        -- apply list_lookup_insert_eq. by eapply lookup_lt_Some.
        -- intros r' Hne. by apply list_lookup_insert_ne.
      * intros Hlast. by rewrite decide_False.
    + eexists. split; [reflexivity|]. by repeat split.
Qed.

Lemma rdp_bound_witness :
  (exists out, simplifyRDP zigzag 0.5 = Some out /\ sublist out zigzag) /\
  (exists s', pointerUp drawing = Some s' /\ ops s' = [0%nat] /\
     currentStroke s' = None).
Proof.
  destruct rdp_bound as [Hsimp Hup]. split.
  - destruct (Hsimp zigzag 0.5) as (out & Hout & Hsub & _).
    exists out. split; [exact Hout | exact Hsub].
  - destruct (Hup drawing 0%nat _ (proj2 drawing_heap) drawing_lookup)
      as (s' & Hs & Hops & Hcur & _).
    exists s'. split; [exact Hs | split; [exact Hops | exact Hcur]].
Defined.

End Simplification.

(** * Further properties *)

(** ** History *)

Section MoreHistory.

(** X1. Redo then undo.  When the redo stack is not empty, redo moves its
    first entry to the end of the document, and an undo right after gives
    back the state before the redo. *)
Theorem redo_undo_inverse (s : State) (o : oid) (rest : list oid) :
  redo s = o :: rest ->
  ops (handleRedo s) = ops s ++ [o] /\ redo (handleRedo s) = rest /\
  handleUndo (handleRedo s) = s.
Proof.
  intros Hr. unfold handleRedo. rewrite Hr.
  split; [reflexivity|]. split; [reflexivity|].
  unfold handleUndo. cbn [ops setOps setRedo redo].
  rewrite last_snoc, length_app. cbn [length].
  replace (length (ops s) + 1 - 1) with (length (ops s)) by lia.
  rewrite take_app_length. destruct s; cbn in *; by subst.
Qed.

Lemma undo_n_shape (n : nat) (s : State) (pre suf : list oid) :
  ops s = pre ++ suf -> length suf = n ->
  Nat.iter n handleUndo s = setRedo (suf ++ redo s) (setOps pre s).
Proof.
  revert s pre suf. induction n as [|n IH]; intros s pre suf Hops Hlen.
  - destruct suf; [|discriminate]. rewrite app_nil_r in Hops. cbn.
    destruct s; cbn in *; by subst.
  - destruct suf as [|x suf]; [discriminate|].
    change (Nat.iter (S n) handleUndo s) with (handleUndo (Nat.iter n handleUndo s)).
    rewrite (IH s (pre ++ [x]) suf).
    + unfold handleUndo. cbn [ops setOps setRedo redo].
      rewrite last_snoc, length_app. cbn [length].
      replace (length pre + 1 - 1) with (length pre) by lia.
      rewrite take_app_length. reflexivity.
    + by rewrite <- app_assoc.
    + cbn in Hlen. lia.
Qed.

Lemma redo_n_shape (n : nat) (s : State) (pre suf : list oid) :
  redo s = pre ++ suf -> length pre = n ->
  Nat.iter n handleRedo s = setOps (ops s ++ pre) (setRedo suf s).
Proof.
  revert s pre suf. induction n as [|n IH]; intros s pre suf Hr Hlen.
  - destruct pre; [|discriminate]. cbn in *. rewrite app_nil_r.
    destruct s; cbn in *; by subst.
  - destruct pre as [|x pre _] using rev_ind; [discriminate|].
    rewrite length_app in Hlen. cbn in Hlen.
    change (Nat.iter (S n) handleRedo s) with (handleRedo (Nat.iter n handleRedo s)).
    rewrite (IH s pre (x :: suf)).
    + unfold handleRedo. cbn [ops setOps setRedo redo].
      by rewrite <- app_assoc.
    + by rewrite Hr, <- app_assoc.
    + lia.
Qed.

(** X2. Undoing n times (n at most the length of the document) removes the
    last n entries and puts them on the redo stack in document order, in
    front of what was there, without touching any Op object; redoing n times
    then gives back the state before the first undo. *)
Theorem undo_redo_many (n : nat) (s : State) :
  n <= length (ops s) ->
  ops (Nat.iter n handleUndo s) = take (length (ops s) - n) (ops s) /\
  redo (Nat.iter n handleUndo s) = drop (length (ops s) - n) (ops s) ++ redo s /\
  heap (Nat.iter n handleUndo s) = heap s /\
  Nat.iter n handleRedo (Nat.iter n handleUndo s) = s.
Proof.
  intros Hn.
  set (k := length (ops s) - n).
  assert (Hshape : Nat.iter n handleUndo s =
            setRedo (drop k (ops s) ++ redo s) (setOps (take k (ops s)) s)).
  { apply undo_n_shape; [by rewrite take_drop | rewrite length_drop; lia]. }
  rewrite Hshape. split; [reflexivity|]. split; [reflexivity|]. split; [reflexivity|].
  rewrite (redo_n_shape n _ (drop k (ops s)) (redo s)).
  - cbn [ops setOps setRedo redo]. rewrite take_drop. destruct s; reflexivity.
  - reflexivity.
  - rewrite length_drop. lia.
Qed.

(** X3. Undoing at least as many times as the document has entries empties
    the document, leaves all its entries on the redo stack in document
    order, and does nothing more however often it is repeated. *)
Theorem undo_saturates (n : nat) (s : State) :
  length (ops s) <= n ->
  Nat.iter n handleUndo s = setRedo (ops s ++ redo s) (setOps [] s).
Proof.
  intros Hn. replace n with ((n - length (ops s)) + length (ops s)) by lia.
  rewrite Nat.iter_add.
  rewrite (undo_n_shape (length (ops s)) s [] (ops s)) by done.
  generalize (n - length (ops s)). intros m. induction m as [|m IH]; [done|].
  change (Nat.iter (S m) handleUndo ?x) with (handleUndo (Nat.iter m handleUndo x)).
  by rewrite IH.
Qed.

Lemma redo_undo_inverse_witness :
  handleUndo (handleRedo (handleUndo twoOps)) = handleUndo twoOps.
Proof.
  exact (proj2 (proj2 (redo_undo_inverse (handleUndo twoOps) 1%nat [] eq_refl))).
Defined.

Lemma undo_redo_many_witness :
  Nat.iter 2 handleRedo (Nat.iter 2 handleUndo twoOps) = twoOps.
Proof.
  assert (H : 2 <= length (ops twoOps)) by (cbn; lia).
  exact (proj2 (proj2 (proj2 (undo_redo_many 2 twoOps H)))).
Defined.

Lemma undo_saturates_witness :
  Nat.iter 5 handleUndo twoOps = setRedo [0; 1]%nat (setOps [] twoOps).
Proof.
  assert (H : length (ops twoOps) <= 5) by (cbn; lia).
  exact (undo_saturates 5 twoOps H).
Defined.

End MoreHistory.

(** ** Gestures *)

Section Gestures.

(** X4. A whole freehand gesture.  After a press of the primary button
    with a freehand tool and any number of movements, the new stroke holds
    the position of the press followed by the positions of the movements, in
    order, and the document has grown by that one entry.  The release then
    returns; it replaces the points by the simplifier's result for
    epsilon = 0.9 when smoothing is on and keeps them when it is off, ends
    the capture, and leaves the document longer by exactly one entry, which a
    single undo removes. *)
Theorem stroke_gesture (e : PointerEvent.t) (es : list PointerEvent.t) (s : State) :
  PointerEvent.button e = 0%Z -> tool s ∈ FREEHAND_TOOLS ->
  let r := length (heap s) in
  let captured := getPos e s :: map (fun e' => getPos e' s) es in
  let s2 := fold_left (fun s e => pointerMove e s) es (pointerDown e s) in
  heap s2 = heap s ++ [Stroke (with_points (startedStroke e s) captured)] /\
  ops s2 = ops s ++ [r] /\ redo s2 = [] /\
  exists s3 final,
    pointerUp s2 = Some s3 /\
    (if smooth s then simplifyRDP captured 0.9 = Some final else final = captured) /\
    heap s3 = heap s ++ [Stroke (with_points (startedStroke e s) final)] /\
    ops s3 = ops s ++ [r] /\ redo s3 = [] /\
    currentStroke s3 = None /\ isDrawing s3 = false /\
    ops (handleUndo s3) = ops s /\ redo (handleUndo s3) = [r].
Proof.
  intros Hb Hf r captured s2.
  pose proof (pointerDown_freehand e s Hb Hf) as Hdown.
  assert (Hd1 : isDrawing (pointerDown e s) = true) by (by rewrite Hdown).
  assert (Hd2 : currentStroke (pointerDown e s) = Some r) by (by rewrite Hdown).
  assert (Hd3 : last (ops (pointerDown e s)) = Some r).
  { rewrite Hdown. cbn [ops setOps]. apply last_snoc. }
  assert (Hd4 : heap (pointerDown e s) = heap s ++ [Stroke (startedStroke e s)])
    by (by rewrite Hdown).
  destruct (moves_capture es (pointerDown e s) (heap s) r (startedStroke e s)
              Hd1 Hd2 Hd3 Hd4 eq_refl)
    as (H1 & H2 & H3 & H4 & H5 & H6 & H7).
  fold s2 in H1, H2, H3, H4, H5, H6, H7.
  assert (Hcap : StrokeOp.points (startedStroke e s)
                   ++ map (fun e0 => getPos e0 (pointerDown e s)) es = captured).
  { unfold captured. cbn [StrokeOp.points startedStroke app]. f_equal.
    apply map_ext. intros e'. apply getPos_canvas. by rewrite Hdown. }
  rewrite Hcap in H1.
  assert (Hops : ops s2 = ops s ++ [r]) by (rewrite H2, Hdown; reflexivity).
  assert (Hredo : redo s2 = []) by (rewrite H3, Hdown; reflexivity).
  split; [done|]. split; [done|]. split; [done|].
  assert (Hlook : heap s2 !! r = Some (Stroke (with_points (startedStroke e s) captured))).
  { rewrite H1. unfold r. by rewrite lookup_app_r, Nat.sub_diag by lia. }
  assert (Hlast : last (ops s2) = Some r) by (rewrite Hops; apply last_snoc).
  assert (Hup : pointerUp s2 =
            if smooth s then
              match simplifyRDP captured 0.9 with
              | Some simplified =>
                  Some (setHeap (<[r := Stroke (with_points (startedStroke e s) simplified)]>
                                   (heap s2))
                          (setCurrentStroke None (setIsDrawing false s2)))
              | None => None
              end
            else Some (setCurrentStroke None (setIsDrawing false s2))).
  { unfold pointerUp. rewrite H5. cbv beta iota. unfold oid. rewrite Hlook.
    cbv beta iota.
    cbn [StrokeOp.smooth with_points startedStroke StrokeOp.points].
    destruct (smooth s); [|reflexivity].
    destruct (simplifyRDP captured 0.9); [|reflexivity].
    by rewrite decide_True. }
  assert (Hundo : forall s3, ops s3 = ops s ++ [r] -> redo s3 = [] ->
            ops (handleUndo s3) = ops s /\ redo (handleUndo s3) = [r]).
  { intros s3 Ho Hr. unfold handleUndo. rewrite Ho, last_snoc, length_app, Hr.
    cbn [length ops redo setOps setRedo].
    replace (length (ops s) + 1 - 1) with (length (ops s)) by lia.
    by rewrite take_app_length. }
  destruct (smooth s) eqn:Hsm.
  - destruct (simplifyRDP_total captured 0.9) as (final & Hfin & _).
    rewrite Hfin in Hup. eexists _, final. split; [exact Hup|]. split; [done|].
    cbn [heap ops redo currentStroke isDrawing setHeap setCurrentStroke setIsDrawing].
    rewrite H1, Hops, Hredo. split.
    { unfold r. replace (length (heap s)) with (length (heap s) + 0) at 1 by lia.
      by rewrite insert_app_r. }
    split; [done|]. split; [done|]. split; [done|]. split; [done|].
    by apply Hundo.
  - eexists _, captured. split; [exact Hup|]. split; [done|].
    cbn [heap ops redo currentStroke isDrawing setHeap setCurrentStroke setIsDrawing].
    rewrite H1, Hops, Hredo.
    split; [done|]. split; [done|]. split; [done|]. split; [done|]. split; [done|].
    by apply Hundo.
Qed.


Lemma stroke_gesture_witness :
  ops (fold_left (fun s e => pointerMove e s) [move1; move2]
         (pointerDown press (initialState (Some canvas0)))) = [0%nat].
Proof.
  assert (Hfree : tool (initialState (Some canvas0)) ∈ FREEHAND_TOOLS).
  { cbn. unfold FREEHAND_TOOLS. rewrite !elem_of_cons. tauto. }
  exact (proj1 (proj2 (stroke_gesture press [move1; move2]
                         (initialState (Some canvas0)) eq_refl Hfree))).
Defined.
End Gestures.

Section ShapeGestures.
Local Open Scope R_scope.

Lemma pointerMove_no_stroke (e : PointerEvent.t) (s : State) :
  currentStroke s = None -> pointerMove e s = s.
Proof. intros H. unfold pointerMove. rewrite H. by destruct (isDrawing s). Qed.

Lemma moves_no_stroke (es : list PointerEvent.t) (s : State) :
  currentStroke s = None -> fold_left (fun s e => pointerMove e s) es s = s.
Proof.
  intros H. induction es as [|e es IH]; [done|].
  cbn [fold_left]. by rewrite pointerMove_no_stroke.
Qed.

Lemma hypot_0 (a b : R) : hypot (a - a) (b - b) = 0.
Proof.
  unfold hypot. replace ((a - a) * (a - a) + (b - b) * (b - b)) with 0 by ring.
  apply sqrt_0.
Qed.

Lemma sign_0 (a : R) : sign (a - a) = 0.
Proof. unfold sign. repeat case_Rdec; lra. Qed.

(** A shape whose two ends coincide is left where it is. *)
Lemma constrain_degenerate (sh : ShapeOp.t) (shift : bool) :
  ShapeOp.x1 sh = ShapeOp.x0 sh -> ShapeOp.y1 sh = ShapeOp.y0 sh ->
  constrainWithShift sh shift = sh.
Proof.
  intros Hx Hy. destruct shift; [|reflexivity].
  destruct sh as [k c sz al comp a0 b0 a1 b1 ly]. cbn in Hx, Hy. subst a1 b1.
  unfold constrainWithShift, with_end. cbn.
  destruct k; f_equal.
  - rewrite hypot_0. ring.
  - rewrite hypot_0. ring.
  - rewrite sign_0. ring.
  - rewrite sign_0. ring.
  - rewrite sign_0. ring.
  - rewrite sign_0. ring.
Qed.

(** X5. A whole shape gesture.  A press of the primary button with the
    line, rectangle or ellipse tool records a provisional shape whose two
    ends are both the position of the press.  Movements change nothing in
    the state: the provisional shape keeps both ends at the press.  The
    release commits that shape as it is, with or without the shape
    constraint: the committed shape starts and ends at the position of the
    press, whatever path the pointer took. *)
Theorem shape_gesture (e : PointerEvent.t) (es : list PointerEvent.t) (s : State) :
  PointerEvent.button e = 0%Z -> tool s ∈ [LINE; RECT; ELLIPSE] ->
  currentStroke s = None ->
  let pos := getPos e s in
  let sh := ShapeOp.mk (shapeOfTool (tool s)) (color s) (size s) (alpha s)
              "source-over" (px pos) (py pos) (px pos) (py pos) (currentLayer s) in
  let s2 := fold_left (fun s e => pointerMove e s) es (pointerDown e s) in
  s2 = pointerDown e s /\ ops s2 = ops s /\ currentShape s2 = Some sh /\
  exists s3, pointerUp s2 = Some s3 /\
    heap s3 = heap s ++ [Shape sh] /\ ops s3 = ops s ++ [length (heap s)] /\
    currentShape s3 = None /\ isDrawing s3 = false.
Proof.
  intros Hb Ht Hcur pos sh s2.
  assert (Hdown : pointerDown e s =
            setCurrentShape (Some sh) (setIsDrawing true (setRedo [] s))).
  { rewrite (pointerDown_primary e s Hb). cbv zeta.
    rewrite !elem_of_cons in Ht.
    unfold sh.
    destruct Ht as [Ht | [Ht | [Ht | Hnil]]]; [| | |by apply elem_of_nil in Hnil];
      rewrite Ht; reflexivity. }
  assert (Hs2 : s2 = pointerDown e s).
  { unfold s2. apply moves_no_stroke. by rewrite Hdown. }
  split; [done|]. rewrite Hs2, Hdown.
  split; [reflexivity|]. split; [reflexivity|].
  unfold pointerUp. cbn [currentStroke setCurrentShape setIsDrawing setRedo].
  rewrite Hcur. cbn [currentShape setCurrentShape setIsDrawing shapeAssist shiftKey setRedo].
  replace (if shapeAssist s then constrainWithShift sh (shiftKey s) else sh) with sh.
  2:{ destruct (shapeAssist s); [|done]. by rewrite constrain_degenerate. }
  eexists. split; [reflexivity|]. by repeat split.
Qed.


Lemma shape_gesture_witness :
  exists s3,
    pointerUp (fold_left (fun s e => pointerMove e s) [move1; move2]
                 (pointerDown press (setTool RECT (initialState (Some canvas0)))))
      = Some s3 /\
    currentShape s3 = None.
Proof.
  assert (Ht : tool (setTool RECT (initialState (Some canvas0))) ∈ [LINE; RECT; ELLIPSE]).
  { cbn. rewrite !elem_of_cons. tauto. }
  destruct (shape_gesture press [move1; move2]
              (setTool RECT (initialState (Some canvas0))) eq_refl Ht eq_refl)
    as (_ & _ & _ & s3 & Hup & _ & _ & Hshape & _).
  exists s3. split; [exact Hup | exact Hshape].
Defined.

End ShapeGestures.

(** ** Pointer movements *)

Section Moves.

(** X6. What a pointer movement can touch.  It never changes the document
    order, the redo stack, the layers or the gesture flags, never allocates,
    and leaves every Op object alone except the last document entry; an
    object that is not a stroke is never changed.  When nothing is being
    drawn, when no stroke is in progress or when the document is empty it
    returns the state as it was. *)
Theorem pointerMove_scope (e : PointerEvent.t) (s : State) :
  ops (pointerMove e s) = ops s /\ redo (pointerMove e s) = redo s /\
  layers (pointerMove e s) = layers s /\
  currentStroke (pointerMove e s) = currentStroke s /\
  currentShape (pointerMove e s) = currentShape s /\
  isDrawing (pointerMove e s) = isDrawing s /\
  length (heap (pointerMove e s)) = length (heap s) /\
  (forall r, last (ops s) <> Some r -> heap (pointerMove e s) !! r = heap s !! r) /\
  (forall r op, heap s !! r = Some op -> (forall st, op <> Stroke st) ->
     heap (pointerMove e s) !! r = Some op) /\
  (isDrawing s = false \/ currentStroke s = None \/ ops s = [] ->
   pointerMove e s = s).
Proof.
  unfold pointerMove.
  destruct (isDrawing s) eqn:Hd; cbn [negb].
  2:{ repeat split; try done. }
  destruct (currentStroke s) as [r0|] eqn:Hc.
  2:{ repeat split; try done. }
  destruct (last (ops s)) as [r|] eqn:Hl.
  2:{ repeat split; try done. }
  destruct (heap s !! r) as [[st|sh|i|t]|] eqn:Hh; try (repeat split; done).
  cbn [ops redo layers currentStroke currentShape isDrawing heap setHeap].
  split; [done|]. split; [done|]. split; [done|]. split; [done|].
  split; [done|]. split; [done|]. split; [apply length_insert|].
  split; [|split].
  - intros r' Hne. apply list_lookup_insert_ne. congruence.
  - intros r' op Hop Hns. destruct (decide (r = r')) as [<-|Hne].
    + assert (Heq : Some op = Some (Stroke st)) by (rewrite <- Hop; exact Hh).
      inversion Heq; subst. by destruct (Hns st).
    + by rewrite list_lookup_insert_ne.
  - intros [Hf | [Hf | Hf]]; try discriminate.
    rewrite Hf in Hl. discriminate.
Qed.

(** X7. A movement adds its point to whatever stroke is the last document
    entry, not to the stroke in progress: when the stroke in progress is no
    longer the last entry (it was undone during the gesture) and the entry
    before it is a stroke, that earlier stroke receives the point and the
    stroke in progress does not. *)
Theorem pointerMove_last_entry (e : PointerEvent.t) (s : State) (r0 r : oid)
    (st : StrokeOp.t) :
  isDrawing s = true -> currentStroke s = Some r0 ->
  last (ops s) = Some r -> heap s !! r = Some (Stroke st) -> r <> r0 ->
  heap (pointerMove e s) !! r =
    Some (Stroke (with_points st (StrokeOp.points st ++ [getPos e s]))) /\
  heap (pointerMove e s) !! r0 = heap s !! r0 /\
  currentStroke (pointerMove e s) = Some r0.
Proof.
  intros Hd Hc Hl Hh Hne. unfold pointerMove. rewrite Hd, Hc, Hl, Hh.
  cbn [negb heap currentStroke setHeap]. split; [|split; [|done]].
  - apply list_lookup_insert_eq. by eapply lookup_lt_Some.
  - by apply list_lookup_insert_ne.
Qed.

Lemma pointerMove_last_entry_witness :
  exists s, run [SetSmooth false; PointerDown press; PointerMove move1; PointerUp;
                 PointerDown press; Undo] (initialState (Some canvas0)) = Some s /\
    exists st, heap s !! 0%nat = Some (Stroke st) /\
      length (StrokeOp.points st) = 2 /\
      heap (pointerMove move2 s) !! 0%nat =
        Some (Stroke (with_points st (StrokeOp.points st ++ [getPos move2 s]))).
Proof.
  eexists. split; [vm_compute; reflexivity|].
  eexists. split; [vm_compute; reflexivity|]. split; [reflexivity|].
  refine (proj1 (pointerMove_last_entry move2 _ 1%nat 0%nat _ _ _ _ _ _)).
  - reflexivity.
  - reflexivity.
  - reflexivity.
  - vm_compute. reflexivity.
  - discriminate.
Defined.

End Moves.

(** ** Text, images and clearing *)

Section TextAndImages.
Local Open Scope R_scope.



(** X9. Importing an image.  With a canvas and an image of positive sizes,
    the import appends one Image Op on the current layer whose rectangle has
    the aspect ratio of the image, is never larger than the image (no
    upscaling), lies inside the canvas and is centred in it; it is as large
    as these conditions allow: it spans the canvas in width or in height, or
    has the size of the image. *)
Theorem image_fit (img : Img.t) (s : State) (c : Canvas.t) :
  canvasRef s = Some c ->
  0 < Canvas.width c -> 0 < Canvas.height c ->
  0 < Img.width img -> 0 < Img.height img ->
  exists i,
    heap (handleImageImport img s) = (heap s ++ [Image i])%list /\
    ops (handleImageImport img s) = (ops s ++ [length (heap s)])%list /\
    ImageOp.img i = Img.handle img /\ ImageOp.layer i = currentLayer s /\
    0 < ImageOp.w i <= Canvas.width c /\ 0 < ImageOp.h i <= Canvas.height c /\
    ImageOp.w i <= Img.width img /\ ImageOp.h i <= Img.height img /\
    ImageOp.w i * Img.height img = ImageOp.h i * Img.width img /\
    0 <= ImageOp.x i /\ ImageOp.x i + ImageOp.w i <= Canvas.width c /\
    0 <= ImageOp.y i /\ ImageOp.y i + ImageOp.h i <= Canvas.height c /\
    ImageOp.x i + ImageOp.w i / 2 = Canvas.width c / 2 /\
    ImageOp.y i + ImageOp.h i / 2 = Canvas.height c / 2 /\
    (ImageOp.w i = Canvas.width c \/ ImageOp.h i = Canvas.height c \/
     (ImageOp.w i = Img.width img /\ ImageOp.h i = Img.height img)).
Proof.
  intros Hc HW HH Hw Hh. unfold handleImageImport. rewrite Hc.
  eexists. split; [reflexivity|]. split; [reflexivity|].
  cbn [ImageOp.img ImageOp.layer ImageOp.w ImageOp.h ImageOp.x ImageOp.y].
  split; [reflexivity|]. split; [reflexivity|].
  set (W := Canvas.width c) in *. set (H := Canvas.height c) in *.
  set (w := Img.width img) in *. set (h := Img.height img) in *.
  set (a := W / w). set (b := H / h).
  assert (Ha : a * w = W) by (unfold a; field; lra).
  assert (Hb : b * h = H) by (unfold b; field; lra).
  assert (Ha0 : 0 < a) by (unfold a; by apply Rdiv_lt_0_compat).
  assert (Hb0 : 0 < b) by (unfold b; by apply Rdiv_lt_0_compat).
  set (sc := Rmin (Rmin a b) 1).
  assert (Hsc : 0 < sc /\ sc <= a /\ sc <= b /\ sc <= 1 /\
                (sc = a \/ sc = b \/ sc = 1)).
  { pose proof (Rmin_l (Rmin a b) 1). pose proof (Rmin_r (Rmin a b) 1).
    pose proof (Rmin_l a b). pose proof (Rmin_r a b).
    assert (0 < Rmin a b) by (by apply Rmin_glb_lt).
    assert (0 < sc) by (apply Rmin_glb_lt; lra).
    fold sc in H0, H1.
    split; [lra|]. split; [lra|]. split; [lra|]. split; [lra|].
    unfold sc.
    destruct (Rle_dec (Rmin a b) 1) as [Hle|Hgt].
    - rewrite (Rmin_left _ _ Hle).
      destruct (Rle_dec a b) as [Hab|Hab].
      + left. by apply Rmin_left.
      + right. left. apply Rmin_right. lra.
    - right. right. apply Rmin_right. lra. }
  destruct Hsc as (Hs0 & Hsa & Hsb & Hs1 & Hcase).
  assert (Hiw : w * sc <= W).
  { apply Rle_trans with (w * a); [apply Rmult_le_compat_l; lra | lra]. }
  assert (Hih : h * sc <= H).
  { apply Rle_trans with (h * b); [apply Rmult_le_compat_l; lra | lra]. }
  assert (Hiw0 : 0 < w * sc) by (by apply Rmult_lt_0_compat).
  assert (Hih0 : 0 < h * sc) by (by apply Rmult_lt_0_compat).
  assert (Hiw1 : w * sc <= w).
  { rewrite <- (Rmult_1_r w) at 2. apply Rmult_le_compat_l; lra. }
  assert (Hih1 : h * sc <= h).
  { rewrite <- (Rmult_1_r h) at 2. apply Rmult_le_compat_l; lra. }
  assert (Hratio : w * sc * h = h * sc * w) by ring.
  assert (Hmax : w * sc = W \/ h * sc = H \/ (w * sc = w /\ h * sc = h)).
  { destruct Hcase as [Hk | [Hk | Hk]]; rewrite Hk.
    - left. lra.
    - right. left. lra.
    - right. right. split; ring. }
  generalize dependent (w * sc). generalize dependent (h * sc).
  intros ih Hih Hih0 Hih1 iw Hratio Hmax Hiw Hiw0 Hiw1.
  repeat split; lra || exact Hmax.
Qed.

Lemma image_fit_witness :
  exists i,
    heap (handleImageImport photo twoOps) = (heap twoOps ++ [Image i])%list /\
    ops (handleImageImport photo twoOps) = (ops twoOps ++ [length (heap twoOps)])%list.
Proof.
  assert (HW : 0 < Canvas.width canvas0) by (cbn; lra).
  assert (HH : 0 < Canvas.height canvas0) by (cbn; lra).
  assert (Hw : 0 < Img.width photo) by (cbn; lra).
  assert (Hh : 0 < Img.height photo) by (cbn; lra).
  destruct (image_fit photo twoOps canvas0 eq_refl HW HH Hw Hh) as (i & H1 & H2 & _).
  exists i. split; [exact H1 | exact H2].
Defined.

(** X10. Clearing.  A declined clear changes nothing.  A confirmed clear
    empties the document and the redo stack and keeps the layers and the Op
    objects; after it no sequence of undos and redos brings anything back. *)
Theorem clear_is_final (s : State) :
  handleClear false s = s /\
  ops (handleClear true s) = [] /\ redo (handleClear true s) = [] /\
  heap (handleClear true s) = heap s /\ layers (handleClear true s) = layers s /\
  currentStroke (handleClear true s) = currentStroke s /\
  (forall n m, Nat.iter n handleRedo (Nat.iter m handleUndo (handleClear true s))
               = handleClear true s).
Proof.
  repeat split.
  intros n m.
  assert (Hu : Nat.iter m handleUndo (handleClear true s) = handleClear true s).
  { induction m as [|m IH]; [done|].
    change (Nat.iter (S m) handleUndo ?x) with (handleUndo (Nat.iter m handleUndo x)).
    by rewrite IH. }
  rewrite Hu. induction n as [|n IH]; [done|].
  change (Nat.iter (S n) handleRedo ?x) with (handleRedo (Nat.iter n handleRedo x)).
  by rewrite IH.
Qed.

End TextAndImages.

(** ** Layers *)

Section Layers.

Lemma fold_max_ge (l : list Z) (a : Z) :
  (a <= fold_left Z.max l a)%Z /\
  forall x, x ∈ l -> (x <= fold_left Z.max l a)%Z.
Proof.
  revert a. induction l as [|y l IH]; intros a; cbn [fold_left].
  - split; [lia|]. intros x Hx. by apply elem_of_nil in Hx.
  - destruct (IH (Z.max a y)) as [H1 H2]. split; [lia|].
    intros x Hx. apply elem_of_cons in Hx as [-> | Hx]; [lia | by apply H2].
Qed.

Lemma nextLayerId_fresh (ls : list Layer.t) :
  Forall (fun l => (Layer.id l < nextLayerId ls)%Z) ls.
Proof.
  destruct ls as [|l rest]; [constructor|]. unfold nextLayerId.
  destruct (fold_max_ge (map Layer.id rest) (Layer.id l)) as [H1 H2].
  constructor; [lia|].
  apply Forall_forall. intros x Hx.
  assert (Hin : Layer.id x ∈ map Layer.id rest) by (by apply list_elem_of_fmap_2).
  specialize (H2 _ Hin). lia.
Qed.

Lemma addLayer_NoDup (s : State) :
  NoDup (layerIds s) -> NoDup (layerIds (addLayer s)).
Proof.
  intros Hnd. pose proof (nextLayerId_fresh (layers s)) as Hfresh.
  unfold layerIds, addLayer. cbn [layers setLayers setCurrentLayer].
  rewrite map_app. apply NoDup_app. split; [exact Hnd|]. split.
  - intros x Hx Hx'. cbn in Hx'. apply list_elem_of_singleton in Hx'. subst x.
    apply list_elem_of_fmap in Hx as (l & Hl & Hin).
    rewrite Forall_forall in Hfresh. specialize (Hfresh l Hin). lia.
  - cbn. apply NoDup_singleton.
Qed.

(** X11. Adding a layer appends one visible, fully opaque layer whose id is
    larger than every id in the list, and selects it; distinct ids stay
    distinct; the document, the redo stack and the Op objects are untouched.
    Deleting the new layer at once gives back the former layer list and
    selects its first layer. *)
Theorem addLayer_fresh (s : State) :
  let s' := addLayer s in
  let new := Layer.mk (nextLayerId (layers s))
               ("Layer " ++ NilEmpty.string_of_uint (Nat.to_uint (length (layers s) + 1)))
               true 1 in
  layers s' = layers s ++ [new] /\ currentLayer s' = Layer.id new /\
  Forall (fun l => (Layer.id l < Layer.id new)%Z) (layers s) /\
  (NoDup (layerIds s) -> NoDup (layerIds s')) /\
  ops s' = ops s /\ redo s' = redo s /\ heap s' = heap s /\
  (forall l0 rest, layers s = l0 :: rest ->
     let d := deleteLayer (Layer.id new) s' in
     layers d = layers s /\ currentLayer d = Layer.id l0 /\
     heap d = heap s /\ redo d = redo s /\
     ops d = filter (fun r => layerOf (heap s) r ≠ Some (Layer.id new)) (ops s)).
Proof.
  intros s' new. pose proof (nextLayerId_fresh (layers s)) as Hfresh.
  split; [reflexivity|]. split; [reflexivity|]. split; [exact Hfresh|].
  split; [apply addLayer_NoDup|].
  split; [reflexivity|]. split; [reflexivity|]. split; [reflexivity|].
  intros l0 rest Hl d.
  assert (Hfilter : filter (fun l => Layer.id l ≠ Layer.id new) (layers s ++ [new])
                    = layers s).
  { rewrite filter_app, filter_cons_False, filter_nil, app_nil_r by (intros ?; done).
    clear -Hfresh. induction Hfresh as [|l ls Hl _ IH]; [done|].
    rewrite filter_cons_True by (cbn in *; lia). by rewrite IH. }
  assert (Hlen : (length (layers s ++ [new]) <=? 1) = false).
  { apply Nat.leb_gt. rewrite length_app, Hl. cbn. lia. }
  unfold d, deleteLayer, s', addLayer.
  cbn [layers setLayers setCurrentLayer currentLayer].
  fold new. rewrite Hlen, Hfilter.
  rewrite decide_True by reflexivity.
  cbn [layers setLayers setCurrentLayer currentLayer setOps heap redo ops].
  rewrite Hl. by repeat split.
Qed.

Lemma filter_ids_sublist (id : Z) (ls : list Layer.t) :
  sublist (map Layer.id (filter (fun l => Layer.id l ≠ id) ls)) (map Layer.id ls).
Proof. apply (fmap_sublist Layer.id), sublist_filter. Qed.

Lemma deleteLayer_ok (id : Z) (s : State) :
  LayersOk s -> LayersOk (deleteLayer id s).
Proof.
  intros (Hne & Hnd & Hcur). unfold deleteLayer.
  destruct (Nat.leb_spec (length (layers s)) 1) as [Hle|Hgt]; [done|].
  set (rem := filter (fun l => Layer.id l ≠ id) (layers s)).
  assert (Hrem : rem <> []).
  { destruct (layers s) as [|l1 [|l2 rest]] eqn:Hl; try (cbn in Hgt; lia).
    unfold layerIds in Hnd. rewrite Hl in Hnd. cbn in Hnd.
    apply NoDup_cons in Hnd as [Hn1 _].
    unfold rem. destruct (decide (Layer.id l1 = id)) as [H1|H1].
    - rewrite filter_cons_False by (intros ?; done).
      rewrite filter_cons_True; [done|].
      intros H2. apply Hn1. rewrite H1, <- H2. apply elem_of_cons. by left.
    - by rewrite filter_cons_True. }
  assert (Hnd' : NoDup (map Layer.id rem)).
  { eapply sublist_NoDup; [exact Hnd | apply filter_ids_sublist]. }
  case_decide as Hc.
  - unfold LayersOk, layerIds.
    cbn [layers currentLayer setLayers setOps setCurrentLayer]. fold rem.
    split; [done|]. split; [done|].
    destruct rem as [|l rest]; [done|]. cbn. apply elem_of_cons. by left.
  - unfold LayersOk, layerIds.
    cbn [layers currentLayer setLayers setOps setCurrentLayer]. fold rem.
    split; [done|]. split; [done|].
    unfold layerIds in Hcur. apply list_elem_of_fmap in Hcur as (l & Hl & Hin).
    apply list_elem_of_fmap. exists l. split; [done|].
    apply list_elem_of_filter. split; [congruence | done].
Qed.

Lemma toggleVisible_ok (id : Z) (s : State) :
  LayersOk s -> LayersOk (toggleVisible id s).
Proof.
  intros (Hne & Hnd & Hcur). unfold LayersOk, layerIds, toggleVisible.
  cbn [layers currentLayer setLayers].
  assert (Hids : map Layer.id
            (map (fun l => if decide (Layer.id l = id)
                           then Layer.mk (Layer.id l) (Layer.name l)
                                  (negb (Layer.visible l)) (Layer.opacity l)
                           else l) (layers s)) = map Layer.id (layers s)).
  { rewrite map_map. apply map_ext. intros l. by case_decide. }
  rewrite Hids. split; [|done].
  destruct (layers s); [done | discriminate].
Qed.

Lemma addLayer_ok (s : State) : LayersOk s -> LayersOk (addLayer s).
Proof.
  intros (Hne & Hnd & Hcur).
  unfold LayersOk. split; [|split].
  - unfold addLayer. cbn [layers setLayers setCurrentLayer]. by destruct (layers s).
  - by apply addLayer_NoDup.
  - unfold layerIds, addLayer. cbn [layers currentLayer setLayers setCurrentLayer].
    rewrite map_app. apply elem_of_app. right.
    cbn. apply elem_of_cons. by left.
Qed.

Lemma LayersOk_same (s s' : State) :
  layers s' = layers s -> currentLayer s' = currentLayer s ->
  LayersOk s -> LayersOk s'.
Proof. unfold LayersOk, layerIds. by intros -> ->. Qed.

Lemma pointerDown_layers (e : PointerEvent.t) (s : State) :
  layers (pointerDown e s) = layers s /\
  currentLayer (pointerDown e s) = currentLayer s.
Proof.
  unfold pointerDown, alloc.
  destruct (negb (PointerEvent.button e =? 0)%Z); [done|].
  destruct (decide (tool s = TEXT)); [done|].
  destruct (bool_decide (tool s ∈ FREEHAND_TOOLS)); [done|].
  by destruct (negb (bool_decide (tool s = SELECT))).
Qed.

Lemma pointerMove_layers (e : PointerEvent.t) (s : State) :
  layers (pointerMove e s) = layers s /\
  currentLayer (pointerMove e s) = currentLayer s.
Proof.
  unfold pointerMove. destruct (negb (isDrawing s)); [done|].
  destruct (currentStroke s); [|done]. destruct (last (ops s)); [|done].
  destruct (heap s !! _) as [[]|]; done.
Qed.

Lemma pointerUp_layers (s s' : State) :
  pointerUp s = Some s' ->
  layers s' = layers s /\ currentLayer s' = currentLayer s.
Proof.
  unfold pointerUp, appendNew, alloc. intros H.
  destruct (currentStroke s) as [r|].
  - destruct (heap s !! r) as [[st| | |]|]; try by injection H as <-.
    destruct (StrokeOp.smooth st); [|by injection H as <-].
    destruct (simplifyRDP _ _); [|done]. injection H as <-.
    by destruct (decide _).
  - destruct (currentShape s); by injection H as <-.
Qed.

Lemma step_layers_ok (a : Action) (s s' : State) :
  LayersOk s -> step a s = Some s' -> LayersOk s'.
Proof.
  intros Hok Hstep. destruct a; cbn [step] in Hstep;
    try (injection Hstep as <-).
  - eapply LayersOk_same; [apply pointerDown_layers..|done].
  - eapply LayersOk_same; [apply pointerMove_layers..|done].
  - apply pointerUp_layers in Hstep as [H1 H2]. by eapply LayersOk_same.
  - done.
  - eapply LayersOk_same; [| |exact Hok]; unfold commitText; by case_match.
  - done.
  - eapply LayersOk_same; [| |exact Hok]; unfold handleUndo; by case_match.
  - eapply LayersOk_same; [| |exact Hok]; unfold handleRedo; by case_match.
  - eapply LayersOk_same; [| |exact Hok]; unfold handleClear; by case_match.
  - eapply LayersOk_same; [| |exact Hok]; unfold handleLoadJSON; by case_match.
  - eapply LayersOk_same; [| |exact Hok]; unfold handleImageImport; by case_match.
  - by apply addLayer_ok.
  - case_match; [|done]. unfold onRow. case_match; [|done]. by apply deleteLayer_ok.
  - unfold onRow. case_match; [|done]. by apply toggleVisible_ok.
  - unfold onRow. case_match eqn:Hrow; [|done].
    destruct Hok as (Hne & Hnd & Hcur). unfold LayersOk, layerIds in *.
    cbn [layers currentLayer setCurrentLayer]. split; [done|]. split; [done|].
    apply list_elem_of_fmap_2. by eapply list_elem_of_lookup_2.
  - done.
  - done.
  - done.
  - done.
  - done.
  - done.
  - done.
  - done.
  - done.
  - done.
Qed.

Lemma initial_layers_ok (c : option Canvas.t) : LayersOk (initialState c).
Proof.
  unfold LayersOk, layerIds. cbn. split; [done|]. split.
  - apply NoDup_singleton.
  - apply elem_of_cons. by left.
Qed.

Lemma run_layers_ok (acts : list Action) (s s' : State) :
  LayersOk s -> run acts s = Some s' -> LayersOk s'.
Proof.
  revert s. induction acts as [|a acts IH]; intros s Hok Hrun; cbn [run] in Hrun.
  - by injection Hrun as <-.
  - destruct (step a s) as [s1|] eqn:Hstep; [|discriminate].
    eapply IH; [|exact Hrun]. by eapply step_layers_ok.
Qed.

(** X12. Whatever the user does from the initial state, the layer list
    never becomes empty, no two layers share an id, and the current layer is
    a layer of the list. *)
Theorem layers_invariant (c : option Canvas.t) (acts : list Action) (s' : State) :
  run acts (initialState c) = Some s' -> LayersOk s'.
Proof. apply run_layers_ok, initial_layers_ok. Qed.

Lemma layers_invariant_witness :
  LayersOk (deleteLayer 0 (addLayer (initialState None))).
Proof.
  apply (layers_invariant None [AddLayer; DeleteLayer 0%nat]).
  vm_compute. reflexivity.
Defined.

End Layers.

(** ** The Op objects *)

Section Refs.

Lemma refs_sub (s s' : State) :
  sublist (ops s' ++ redo s') (ops s ++ redo s) ->
  length (heap s) <= length (heap s') ->
  RefsOk s -> RefsOk s'.
Proof.
  intros Hsub Hlen [Hnd Hall]. split.
  - by eapply sublist_NoDup.
  - apply Forall_forall. intros r Hr.
    rewrite Forall_forall in Hall.
    specialize (Hall r (elem_of_sublist _ _ _ Hr Hsub)). lia.
Qed.

Lemma refs_fresh (s s' : State) :
  ops s' = ops s ++ [length (heap s)] ->
  sublist (redo s') (redo s) ->
  length (heap s') = S (length (heap s)) ->
  RefsOk s -> RefsOk s'.
Proof.
  intros Hops Hredo Hlen [Hnd Hall].
  assert (Hsub : sublist (ops s ++ redo s') (ops s ++ redo s))
    by (by apply sublist_app).
  assert (Hnew : length (heap s) ∉ ops s ++ redo s).
  { intros Hin. rewrite Forall_forall in Hall. specialize (Hall _ Hin). lia. }
  split.
  - rewrite Hops, <- app_assoc. cbn [app].
    apply NoDup_app in Hnd as (H1 & H2 & H3).
    apply NoDup_app. split; [done|]. split.
    + intros x Hx Hx'. apply elem_of_cons in Hx' as [-> | Hx'].
      * apply Hnew, elem_of_app. by left.
      * apply (H2 x Hx). by eapply elem_of_sublist.
    + apply NoDup_cons. split.
      * intros Hin. apply Hnew, elem_of_app. right. by eapply elem_of_sublist.
      * by eapply sublist_NoDup.
  - rewrite Hops, <- app_assoc. cbn [app]. rewrite Hlen.
    apply Forall_forall. intros r Hr.
    apply elem_of_app in Hr as [Hr | Hr].
    + rewrite Forall_forall in Hall.
      assert (r < length (heap s)); [|lia].
      apply Hall, elem_of_app. by left.
    + apply elem_of_cons in Hr as [-> | Hr]; [lia|].
      rewrite Forall_forall in Hall.
      assert (r < length (heap s)); [|lia].
      apply Hall, elem_of_app. right. by eapply elem_of_sublist.
Qed.

Lemma appendNew_refs (op : Op) (s : State) : RefsOk s -> RefsOk (appendNew op s).
Proof.
  apply refs_fresh; unfold appendNew, alloc; cbn [ops redo heap setOps setHeap].
  - done.
  - done.
  - rewrite length_app. cbn. lia.
Qed.

Lemma pointerDown_refs (e : PointerEvent.t) (s : State) :
  RefsOk s -> RefsOk (pointerDown e s).
Proof.
  unfold pointerDown, alloc.
  destruct (negb (PointerEvent.button e =? 0)%Z); [done|].
  destruct (decide (tool s = TEXT)).
  { apply refs_sub; cbn [ops redo heap setTextEditor setRedo]; [|done].
    rewrite app_nil_r. by apply sublist_inserts_r. }
  destruct (bool_decide (tool s ∈ FREEHAND_TOOLS)).
  { apply refs_fresh;
      cbn [ops redo heap setOps setCurrentStroke setHeap setIsDrawing setRedo].
    - done.
    - apply sublist_nil_l.
    - rewrite length_app. cbn. lia. }
  destruct (negb (bool_decide (tool s = SELECT)));
    (apply refs_sub;
     cbn [ops redo heap setCurrentShape setIsDrawing setRedo]; [|done];
     rewrite app_nil_r; by apply sublist_inserts_r).
Qed.

Lemma pointerMove_refs (e : PointerEvent.t) (s : State) :
  RefsOk s -> RefsOk (pointerMove e s).
Proof.
  unfold pointerMove. destruct (negb (isDrawing s)); [done|].
  destruct (currentStroke s); [|done]. destruct (last (ops s)) as [r|]; [|done].
  destruct (heap s !! r) as [[]|]; try done.
  apply refs_sub; cbn [ops redo heap setHeap]; [done|].
  by rewrite length_insert.
Qed.

Lemma pointerUp_refs (s s' : State) :
  pointerUp s = Some s' -> RefsOk s -> RefsOk s'.
Proof.
  unfold pointerUp. intros H.
  destruct (currentStroke s) as [r|].
  - destruct (heap s !! r) as [[st| | |]|]; try by injection H as <-.
    destruct (StrokeOp.smooth st); [|by injection H as <-].
    destruct (simplifyRDP _ _); [|done]. injection H as <-.
    destruct (decide _); [|done].
    apply refs_sub; cbn [ops redo heap setHeap setCurrentStroke setIsDrawing]; [done|].
    by rewrite length_insert.
  - destruct (currentShape s); injection H as <-; [|done].
    intros Hok. by apply (appendNew_refs _ (setIsDrawing false s)).
Qed.

Lemma handleUndo_refs (s : State) : RefsOk s -> RefsOk (handleUndo s).
Proof.
  unfold handleUndo. destruct (last (ops s)) as [o|] eqn:Hlast; [|done].
  apply refs_sub; cbn [ops redo heap setOps setRedo]; [|done].
  apply last_Some in Hlast as [pre Hpre]. rewrite Hpre.
  rewrite length_app, Nat.add_sub, take_app_length, <- app_assoc. done.
Qed.

Lemma handleRedo_refs (s : State) : RefsOk s -> RefsOk (handleRedo s).
Proof.
  unfold handleRedo. destruct (redo s) as [|first rest] eqn:Hredo; [done|].
  unfold RefsOk. cbn [ops redo heap setOps setRedo].
  by rewrite Hredo, <- app_assoc.
Qed.

Lemma handleLoadJSON_refs (parsed : Parsed) (s : State) :
  RefsOk s -> RefsOk (handleLoadJSON parsed s).1.
Proof.
  destruct parsed as [| |items]; try done. intros _.
  unfold RefsOk. cbn [handleLoadJSON fst ops redo heap setOps setRedo setHeap].
  rewrite app_nil_r, length_app. split.
  - apply NoDup_seq.
  - apply Forall_seq. intros j Hj. lia.
Qed.

Lemma deleteLayer_refs (id : Z) (s : State) : RefsOk s -> RefsOk (deleteLayer id s).
Proof.
  unfold deleteLayer. destruct (length (layers s) <=? 1); [done|].
  destruct (decide _);
    (apply refs_sub; cbn [ops redo heap setOps setLayers setCurrentLayer]; [|done];
     apply sublist_app; [apply sublist_filter | done]).
Qed.

Lemma step_refs_ok (a : Action) (s s' : State) :
  RefsOk s -> step a s = Some s' -> RefsOk s'.
Proof.
  intros Hok Hstep. destruct a; cbn [step] in Hstep;
    try (injection Hstep as <-); try exact Hok.
  - by apply pointerDown_refs.
  - by apply pointerMove_refs.
  - by eapply pointerUp_refs.
  - unfold commitText. destruct (isBlank _); [done|].
    by apply (appendNew_refs _ s).
  - by apply handleUndo_refs.
  - by apply handleRedo_refs.
  - unfold handleClear. destruct (negb confirmed); [done|].
    unfold RefsOk. cbn [ops redo heap setOps setRedo app].
    split; [apply NoDup_nil_2 | constructor].
  - by apply handleLoadJSON_refs.
  - unfold handleImageImport. destruct (canvasRef s); [|done].
    by apply appendNew_refs.
  - destruct (1 <? length (layers s)); [|done]. unfold onRow.
    destruct (layers s !! row); [|done]. by apply deleteLayer_refs.
  - unfold onRow. by destruct (layers s !! row).
  - unfold onRow. by destruct (layers s !! row).
Qed.

Lemma run_refs_ok (acts : list Action) (s s' : State) :
  RefsOk s -> run acts s = Some s' -> RefsOk s'.
Proof.
  revert s. induction acts as [|a acts IH]; intros s Hok Hrun; cbn [run] in Hrun.
  - by injection Hrun as <-.
  - destruct (step a s) as [s1|] eqn:Hstep; [|discriminate].
    eapply IH; [|exact Hrun]. by eapply step_refs_ok.
Qed.

(** X13. Whatever the user does from the initial state, no Op object is
    in the document twice, or in the document and on the redo stack at once,
    or on the redo stack twice; and every entry of either is an object that
    exists. *)
Theorem refs_invariant (c : option Canvas.t) (acts : list Action) (s' : State) :
  run acts (initialState c) = Some s' -> RefsOk s'.
Proof.
  apply run_refs_ok. split; [apply NoDup_nil_2 | constructor].
Qed.

Lemma refs_invariant_witness :
  RefsOk (handleUndo (handleImageImport photo (initialState (Some canvas0)))).
Proof.
  apply (refs_invariant (Some canvas0) [ImportImage photo; Undo]).
  vm_compute. reflexivity.
Defined.

End Refs.

Section Objects.

Lemma repointed_refl (op : Op) : repointed op op.
Proof. by left. Qed.

Lemma repointed_trans (a b c : Op) : repointed a b -> repointed b c -> repointed a c.
Proof.
  intros [-> | (st & pts & -> & ->)] [-> | (st' & pts' & Hb & ->)].
  - by left.
  - right. by exists st', pts'.
  - right. by exists st, pts.
  - injection Hb as <-. right. exists st, pts'. split; [done|].
    by rewrite with_points_twice.
Qed.

Lemma persists_refl (h : list Op) : persists h h.
Proof. intros r op H. exists op. split; [done | apply repointed_refl]. Qed.

Lemma persists_trans (h1 h2 h3 : list Op) :
  persists h1 h2 -> persists h2 h3 -> persists h1 h3.
Proof.
  intros H12 H23 r op H. destruct (H12 r op H) as (op2 & H2 & Hr2).
  destruct (H23 r op2 H2) as (op3 & H3 & Hr3).
  exists op3. split; [done|]. by eapply repointed_trans.
Qed.

Lemma persists_app (h items : list Op) : persists h (h ++ items).
Proof.
  intros r op H. exists op. split; [|apply repointed_refl].
  by apply lookup_app_l_Some.
Qed.

Lemma persists_insert (h : list Op) (r : oid) (st : StrokeOp.t) (pts : list Point) :
  h !! r = Some (Stroke st) ->
  persists h (<[r := Stroke (with_points st pts)]> h).
Proof.
  intros Hr r' op H. destruct (decide (r' = r)) as [-> | Hne].
  - exists (Stroke (with_points st pts)). split.
    + apply list_lookup_insert_eq. by eapply lookup_lt_Some.
    + right. exists st, pts. split; [|done].
      assert (Heq : Some op = Some (Stroke st)) by (rewrite <- H; exact Hr).
      by injection Heq.
  - exists op. split; [|apply repointed_refl].
    by rewrite list_lookup_insert_ne.
Qed.

Lemma step_persists (a : Action) (s s' : State) :
  step a s = Some s' -> persists (heap s) (heap s').
Proof.
  intros Hstep. destruct a; cbn [step] in Hstep;
    try (injection Hstep as <-); try apply persists_refl.
  - unfold pointerDown, alloc.
    destruct (negb (PointerEvent.button e =? 0)%Z); [apply persists_refl|].
    destruct (decide (tool s = TEXT)); [apply persists_refl|].
    destruct (bool_decide (tool s ∈ FREEHAND_TOOLS)); [apply persists_app|].
    destruct (negb (bool_decide (tool s = SELECT))); apply persists_refl.
  - unfold pointerMove. destruct (negb (isDrawing s)); [apply persists_refl|].
    destruct (currentStroke s); [|apply persists_refl].
    destruct (last (ops s)) as [r|]; [|apply persists_refl].
    destruct (heap s !! r) as [[]|] eqn:Hr; try apply persists_refl.
    by apply persists_insert.
  - unfold pointerUp, appendNew, alloc in Hstep.
    destruct (currentStroke s) as [r|].
    + destruct (heap s !! r) as [[st| | |]|] eqn:Hr;
        try (injection Hstep as <-; apply persists_refl).
      destruct (StrokeOp.smooth st); [|injection Hstep as <-; apply persists_refl].
      destruct (simplifyRDP _ _); [|done]. injection Hstep as <-.
      destruct (decide _); [|apply persists_refl].
      by apply persists_insert.
    + destruct (currentShape s); injection Hstep as <-;
        [apply persists_app | apply persists_refl].
  - unfold commitText, appendNew, alloc. destruct (isBlank _);
      [apply persists_refl | apply persists_app].
  - unfold handleUndo. destruct (last (ops s)); apply persists_refl.
  - unfold handleRedo. destruct (redo s); apply persists_refl.
  - unfold handleClear. destruct (negb confirmed); apply persists_refl.
  - destruct parsed; try apply persists_refl. apply persists_app.
  - unfold handleImageImport, appendNew, alloc. destruct (canvasRef s);
      [apply persists_app | apply persists_refl].
  - destruct (1 <? length (layers s)); [|apply persists_refl]. unfold onRow.
    destruct (layers s !! row); [|apply persists_refl].
    unfold deleteLayer. destruct (length (layers s) <=? 1); [apply persists_refl|].
    destruct (decide _); apply persists_refl.
  - unfold onRow. destruct (layers s !! row); apply persists_refl.
  - unfold onRow. destruct (layers s !! row); apply persists_refl.
Qed.

(** X14. No event destroys or replaces an Op object: after any sequence of
    events every object that existed is still there, unchanged, except that
    a Stroke may have other points; its tool, colour, size, alpha, blend
    mode, smoothing, brush and layer are fixed when it is created. *)
Theorem objects_persist (acts : list Action) (s s' : State) :
  run acts s = Some s' -> persists (heap s) (heap s').
Proof.
  revert s. induction acts as [|a acts IH]; intros s Hrun; cbn [run] in Hrun.
  - injection Hrun as <-. apply persists_refl.
  - destruct (step a s) as [s1|] eqn:Hstep; [|discriminate].
    eapply persists_trans; [by eapply step_persists | by apply IH].
Qed.

Lemma objects_persist_witness :
  persists (heap (pointerDown press (initialState (Some canvas0))))
    (heap (pointerMove move1 (pointerDown press (initialState (Some canvas0))))).
Proof.
  apply (objects_persist [PointerMove move1]).
  vm_compute. reflexivity.
Defined.

End Objects.

(** ** What a render reads *)

Section RenderScope.

Lemma filter_filter_weaken {A} (P Q : A -> Prop) `{!forall x, Decision (P x)}
    `{!forall x, Decision (Q x)} (l : list A) :
  (forall x, x ∈ l -> P x -> Q x) -> filter P (filter Q l) = filter P l.
Proof.
  induction l as [|x l IH]; intros Himp; [done|].
  assert (IH' : filter P (filter Q l) = filter P l).
  { apply IH. intros y Hy. apply Himp, elem_of_cons. by right. }
  destruct (decide (Q x)) as [HQ|HQ].
  - rewrite (filter_cons_True Q) by done.
    destruct (decide (P x)) as [HP|HP].
    + rewrite !(filter_cons_True P) by done. by rewrite IH'.
    + rewrite !(filter_cons_False P) by done. done.
  - rewrite (filter_cons_False Q) by done.
    rewrite (filter_cons_False P); [done|].
    intros HP. apply HQ, Himp; [|done]. apply elem_of_cons. by left.
Qed.

Lemma fold_left_ext_in {A B} (f g : A -> B -> A) (l : list B) (a : A) :
  (forall x b, x ∈ l -> f b x = g b x) -> fold_left f l a = fold_left g l a.
Proof.
  revert a. induction l as [|x l IH]; intros a Hfg; [done|]. cbn [fold_left].
  rewrite (Hfg x a) by (apply elem_of_cons; by left).
  apply IH. intros y b Hy. apply Hfg, elem_of_cons. by right.
Qed.

(** What [renderAll] reads of the state. *)
Lemma renderAll_ext (ctx : Ctx.t) (s1 s2 : State) :
  canvasRef s1 = canvasRef s2 -> heap s1 = heap s2 -> layers s1 = layers s2 ->
  background s1 = background s2 ->
  (forall l, l ∈ layers s2 -> Layer.visible l = true ->
     filter (fun r => layerOf (heap s2) r = Some (Layer.id l)) (ops s1)
     = filter (fun r => layerOf (heap s2) r = Some (Layer.id l)) (ops s2)) ->
  renderAll ctx s1 = renderAll ctx s2.
Proof.
  intros Hc Hh Hl Hb Hops. unfold renderAll. rewrite Hc, Hl, Hb.
  destruct (canvasRef s2) as [c|]; [|done]. f_equal.
  apply fold_left_ext_in. intros l sf Hin. unfold paintLayer.
  destruct (Layer.visible l) eqn:Hv; [|done]. cbn [negb].
  unfold layerOps. by rewrite Hh, (Hops l Hin Hv).
Qed.

(** X15. A render reads only the document entries that belong to a shown
    layer of the layer list.  Entries of a hidden layer, entries whose layer
    id is the id of no layer, and entries that are no object can be dropped
    from the document without changing the surface or the registers that
    the render leaves. *)
Theorem render_visible_only (ctx : Ctx.t) (s : State) :
  renderAll ctx (setOps (filter (paintable s) (ops s)) s) = renderAll ctx s.
Proof.
  apply renderAll_ext; try done. intros l Hin Hv.
  cbn [ops setOps]. apply filter_filter_weaken. intros r _ Hr.
  apply Exists_exists. exists l. split; [exact Hin | by split].
Qed.

(** X16. Deleting a layer purges the document but not the redo stack.  If
    the first redo entry is an Op of the deleted layer, a redo after the
    deletion puts it back at the end of the document although no layer has
    its id any more; the render is the same with and without it. *)
Theorem redo_after_deleteLayer (s : State) (id : Z) (r : oid) (rest : list oid) :
  1 < length (layers s) ->
  redo s = r :: rest ->
  layerOf (heap s) r = Some id ->
  let d := deleteLayer id s in
  let s' := handleRedo d in
  redo d = r :: rest /\
  ops s' = ops d ++ [r] /\
  layerOf (heap s') r = Some id /\
  (id ∉ layerIds s') /\
  forall ctx, renderAll ctx s' = renderAll ctx d.
Proof.
  intros Hlen Hredo Hr d s'.
  assert (Hleb : (length (layers s) <=? 1) = false) by (apply Nat.leb_gt; lia).
  assert (Hd : redo d = r :: rest /\ heap d = heap s /\
               layers d = filter (fun l => Layer.id l ≠ id) (layers s)).
  { unfold d, deleteLayer. rewrite Hleb. by destruct (decide _). }
  destruct Hd as (Hd1 & Hd2 & Hd3).
  assert (Hs' : s' = setOps (ops d ++ [r]) (setRedo rest d)).
  { unfold s', handleRedo. by rewrite Hd1. }
  assert (Hnot : id ∉ layerIds s').
  { rewrite Hs'. unfold layerIds. cbn [layers setOps setRedo]. rewrite Hd3.
    intros Hin. apply list_elem_of_fmap in Hin as (l & Hl & Hin).
    apply list_elem_of_filter in Hin as [Hne _]. by apply Hne. }
  split; [done|]. split; [by rewrite Hs'|].
  split; [by rewrite Hs'; cbn [heap setOps setRedo]; rewrite Hd2|].
  split; [done|].
  intros ctx. rewrite Hs'. apply renderAll_ext; try done.
  intros l Hin Hv. cbn [ops setOps setRedo].
  rewrite filter_app, filter_cons_False, filter_nil, app_nil_r; [done|].
  rewrite Hd2, Hr. intros Heq. injection Heq as ->.
  apply Hnot. rewrite Hs'. unfold layerIds. cbn [layers setOps setRedo].
  by apply list_elem_of_fmap_2.
Qed.

Lemma redo_after_deleteLayer_witness :
  let s := handleUndo (handleImageImport photo (addLayer (initialState (Some canvas0)))) in
  let s' := handleRedo (deleteLayer 1 s) in
  ops s' = (ops (deleteLayer 1 s) ++ [0%nat])%list /\ (1%Z ∉ layerIds s').
Proof.
  intros s s'.
  destruct (redo_after_deleteLayer s 1 0%nat []) as (_ & H1 & _ & H2 & _).
  - vm_compute. lia.
  - vm_compute. reflexivity.
  - vm_compute. reflexivity.
  - split; [exact H1 | exact H2].
Defined.

End RenderScope.

(** ** Saving and loading *)

Section SaveLoad.

(** X17. Saving and loading.  The array handed to JSON.stringify is the
    document without its Image Ops, in order.  Loading that array, into any
    state, gives a document equal to it, an empty redo stack and the layers
    of the loading state; saving again gives the same array.  A document
    without images comes back whole. *)
Theorem save_load_round_trip (s s0 : State) :
  let saved := handleSaveJSON s in
  let s' := (handleLoadJSON (ParsedArray saved) s0).1 in
  sublist saved (document s) /\
  Forall (fun op => isImage op = false) saved /\
  (forall op, op ∈ document s -> isImage op = false -> op ∈ saved) /\
  document s' = saved /\
  handleSaveJSON s' = saved /\
  redo s' = [] /\
  layers s' = layers s0 /\ currentLayer s' = currentLayer s0 /\
  (Forall (fun op => isImage op = false) (document s) -> document s' = document s).
Proof.
  intros saved s'.
  assert (Hdoc : document s' = saved).
  { unfold s', document. cbn [handleLoadJSON fst ops heap setOps setRedo setHeap].
    apply omap_lookup_fresh. }
  assert (Hall : Forall (fun op => isImage op = false) saved).
  { apply Forall_forall. intros op Hop.
    by apply list_elem_of_filter in Hop as [Hop _]. }
  split; [apply sublist_filter|]. split; [done|]. split.
  { intros op Hin Himg. by apply list_elem_of_filter. }
  split; [done|]. split.
  { unfold handleSaveJSON at 1. rewrite Hdoc.
    clear -Hall. induction Hall as [|op l Hop _ IH]; [done|].
    by rewrite filter_cons_True, IH. }
  split; [done|]. split; [done|]. split; [done|].
  intros Hno. rewrite Hdoc. unfold saved, handleSaveJSON.
  induction Hno as [|op l Hop _ IH]; [done|].
  by rewrite filter_cons_True, IH.
Qed.

End SaveLoad.

(** ** Showing and hiding a layer *)

Section Visibility.

(** X18. The eye button.  Pressing it twice gives back the state as it
    was.  One press changes no layer id, name or opacity and flips the
    visible flag of the layers with that id only. *)
Theorem toggleVisible_twice (id : Z) (s : State) :
  toggleVisible id (toggleVisible id s) = s /\
  layerIds (toggleVisible id s) = layerIds s /\
  (forall i l, layers s !! i = Some l ->
     exists l', layers (toggleVisible id s) !! i = Some l' /\
       Layer.id l' = Layer.id l /\ Layer.name l' = Layer.name l /\
       Layer.opacity l' = Layer.opacity l /\
       Layer.visible l' = (if decide (Layer.id l = id) then negb (Layer.visible l)
                           else Layer.visible l)).
Proof.
  split; [|split].
  - destruct s as [? ? ? ? ls ? ? ? ? ? ? ? ? ? ? ? ? ? ?].
    unfold toggleVisible, setLayers. cbn. f_equal.
    rewrite map_map. rewrite <- (map_id ls) at 2. apply map_ext.
    intros [i n v o]. cbn. destruct (decide (i = id)) as [->|Hne]; cbn.
    + rewrite decide_True by done. by rewrite negb_involutive.
    + by rewrite decide_False.
  - unfold layerIds, toggleVisible. cbn [layers setLayers]. rewrite map_map.
    apply map_ext. intros l. by destruct (decide _).
  - intros i l Hl. unfold toggleVisible. cbn [layers setLayers].
    eexists. split.
    + change (map ?f ?l) with (f <$> l). by rewrite list_lookup_fmap, Hl.
    + by destruct (decide _).
Qed.

End Visibility.

(** ** Pressure and line width *)

Section Widths.
Local Open Scope R_scope.

Lemma widths_last (w : Point -> R) (rest : list Point) (sf : Surface) :
  fold_left (fun sf p => onCtx (setLineWidth (w p)) sf) rest sf
  = match last rest with
    | Some p => onCtx (setLineWidth (w p)) sf
    | None => sf
    end.
Proof.
  induction rest as [|p rest IH] using rev_ind; [done|].
  rewrite fold_left_app, last_snoc. cbn [fold_left]. rewrite IH.
  by destruct (last rest).
Qed.

(** X19. A smoothed stroke is painted by one drawing call.  The line width
    is assigned once per point after the first, and the call comes after the
    loop: the whole stroke has the width of the last point, size times
    (0.5 + 0.5 * pressure) with 0.8 for a missing pressure, or the plain
    size for the eraser.  A stroke of one point assigns no width and is
    painted with the width that the context had. *)
Theorem smooth_stroke_width (layer : Layer.t) (st : StrokeOp.t) (sf : Surface)
    (p0 : Point) (rest : list Point) :
  StrokeOp.smooth st = true ->
  StrokeOp.points st = p0 :: rest ->
  let width :=
    match last rest with
    | Some p => StrokeOp.size st *
                (if decide (StrokeOp.tool st = ERASER) then 1
                 else 0.5 + 0.5 * default 0.8 (pp p))
    | None => Ctx.lineWidth sf.1
    end in
  let ctx :=
    Ctx.mk (StrokeOp.composite st) (StrokeOp.alpha st * Layer.opacity layer)
      (StrokeOp.color st) (Ctx.fillStyle sf.1) width (Ctx.font sf.1) in
  paintOp layer (Stroke st) sf = (ctx, (sf.2 ++ [(ctx, Curve (p0 :: rest))])%list).
Proof.
  intros Hsm Hpts width ctx. unfold paintOp. rewrite Hpts, Hsm.
  rewrite widths_last. unfold width, ctx. destruct sf as [c painted].
  by destruct (last rest).
Qed.

Lemma smooth_stroke_width_witness :
  paintOp (Layer.mk 0 "Layer 1" true 1) penStroke (ctx0, [])
  = (let ctx := Ctx.mk "source-over" (1 / 2 * 1) "#164e63" "#000000"
                  (4 * (0.5 + 0.5 * 0.8)) (10, "sans-serif"%string) in
     (ctx, [(ctx, Curve [mkPoint 0 0 None; mkPoint 5 5 None])])).
Proof.
  exact (smooth_stroke_width (Layer.mk 0 "Layer 1" true 1)
           (StrokeOp.mk PEN "#164e63" 4 (1 / 2) "source-over"
              [mkPoint 0 0 None; mkPoint 5 5 None] true "smooth" 0)
           (ctx0, []) (mkPoint 0 0 None) [mkPoint 5 5 None] eq_refl eq_refl).
Defined.

(** X20. The pressure of a captured point lies between 0.05 and 1: a
    reported pressure of 0 counts as 0.5, any other pressure is clamped to
    that range. *)
Theorem getPos_pressure (e : PointerEvent.t) (s : State) (c : Canvas.t) :
  canvasRef s = Some c ->
  exists p, pp (getPos e s) = Some p /\ 0.05 <= p <= 1 /\
    (PointerEvent.pressure e = 0 -> p = 0.5) /\
    (0.05 <= PointerEvent.pressure e <= 1 -> p = PointerEvent.pressure e) /\
    (PointerEvent.pressure e <> 0 -> PointerEvent.pressure e < 0.05 -> p = 0.05) /\
    (1 < PointerEvent.pressure e -> p = 1).
Proof.
  intros Hc. unfold getPos. rewrite Hc. cbn [pp]. eexists. split; [reflexivity|].
  unfold clamp, Rmin.
  destruct (Req_dec_T (PointerEvent.pressure e) 0) as [H0|H0];
    case_Rdec; unfold Rmax; case_Rdec; repeat split; intros; lra.
Qed.

Lemma getPos_pressure_witness :
  exists p, pp (getPos press twoOps) = Some p /\ 0.05 <= p <= 1.
Proof.
  destruct (getPos_pressure press twoOps canvas0 eq_refl) as (p & H1 & H2 & _).
  exists p. split; [exact H1 | exact H2].
Defined.

End Widths.

(** ** The distance to a segment *)

Section Distance.
Local Open Scope R_scope.

Lemma distSqAt_expand (p a b : Point) (t : R) :
  distSqAt p a b t =
    (sq (px p - px a) + sq (py p - py a))
    - 2 * t * ((px b - px a) * (px p - px a) + (py b - py a) * (py p - py a))
    + t * t * ((px b - px a) * (px b - px a) + (py b - py a) * (py b - py a)).
Proof. unfold distSqAt, sq. ring. Qed.

Lemma distSq_attained (p a b : Point) :
  exists t, 0 <= t <= 1 /\ distSqToSegment p a b = distSqAt p a b t.
Proof.
  unfold distSqToSegment. cbv zeta.
  set (c1 := (px b - px a) * (px p - px a) + (py b - py a) * (py p - py a)).
  set (c2 := (px b - px a) * (px b - px a) + (py b - py a) * (py b - py a)).
  destruct (Rle_dec c1 0) as [H1|H1].
  - exists 0. split; [lra|]. unfold distSqAt, sq. ring.
  - destruct (Rle_dec c2 c1) as [H2|H2].
    + exists 1. split; [lra|]. unfold distSqAt, sq. ring.
    + exists (c1 / c2). split; [|reflexivity].
      assert (0 < c2) by lra. split.
      * apply Rlt_le, Rdiv_lt_0_compat; lra.
      * apply Rlt_le. apply (Rmult_lt_reg_r c2); [lra|].
        unfold Rdiv. rewrite Rmult_assoc, Rinv_l by lra. lra.
Qed.

Lemma distSq_lower (p a b : Point) (t : R) :
  0 <= t <= 1 -> distSqToSegment p a b <= distSqAt p a b t.
Proof.
  intros Ht. rewrite distSqAt_expand.
  unfold distSqToSegment. cbv zeta.
  set (c1 := (px b - px a) * (px p - px a) + (py b - py a) * (py p - py a)).
  set (c2 := (px b - px a) * (px b - px a) + (py b - py a) * (py b - py a)).
  set (w2 := sq (px p - px a) + sq (py p - py a)).
  assert (Hc2 : 0 <= c2).
  { unfold c2. pose proof (Rle_0_sqr (px b - px a)). pose proof (Rle_0_sqr (py b - py a)).
    unfold Rsqr in *. lra. }
  destruct (Rle_dec c1 0) as [H1|H1].
  - assert (0 <= t * t * c2) by (apply Rmult_le_pos; [nra | lra]).
    assert (0 <= t * - c1) by (apply Rmult_le_pos; lra). lra.
  - destruct (Rle_dec c2 c1) as [H2|H2].
    + replace (sq (px p - px b) + sq (py p - py b)) with (w2 - 2 * c1 + c2)
        by (unfold w2, c1, c2, sq; ring).
      assert (0 <= (1 - t) * (c1 - c2)) by (apply Rmult_le_pos; lra).
      assert (0 <= (1 - t) * c1) by (apply Rmult_le_pos; lra).
      assert (0 <= (1 - t) * ((1 - t) * c2))
        by (apply Rmult_le_pos; [lra | apply Rmult_le_pos; lra]).
      lra.
    + assert (Hpos : 0 < c2) by lra.
      replace (sq (px p - (px a + c1 / c2 * (px b - px a)))
               + sq (py p - (py a + c1 / c2 * (py b - py a))))
        with (w2 - c1 * c1 / c2)
        by (unfold w2, c1, c2, sq; field; fold c2; lra).
      assert (Hsq : 0 <= c2 * ((t - c1 / c2) * (t - c1 / c2))).
      { apply Rmult_le_pos; [lra|]. pose proof (Rle_0_sqr (t - c1 / c2)) as Hs.
        unfold Rsqr in Hs. exact Hs. }
      replace (c2 * ((t - c1 / c2) * (t - c1 / c2)))
        with (t * t * c2 - 2 * t * c1 + c1 * c1 / c2) in Hsq by (field; lra).
      lra.
Qed.

(** X21. [distSqToSegment p a b] is the squared distance from [p] to the
    nearest point of the segment from [a] to [b]: no point of the segment is
    nearer, and some point of the segment is at that distance.  It does not
    depend on the order of the two ends. *)
Theorem distSqToSegment_closest (p a b : Point) :
  (forall t, 0 <= t <= 1 -> distSqToSegment p a b <= distSqAt p a b t) /\
  (exists t, 0 <= t <= 1 /\ distSqToSegment p a b = distSqAt p a b t) /\
  distSqToSegment p a b = distSqToSegment p b a.
Proof.
  split; [apply distSq_lower|]. split; [apply distSq_attained|].
  assert (Hflip : forall u v t, distSqAt p u v t = distSqAt p v u (1 - t))
    by (intros; unfold distSqAt, sq; ring).
  apply Rle_antisym.
  - destruct (distSq_attained p b a) as (t & Ht & ->).
    rewrite Hflip. apply distSq_lower. lra.
  - destruct (distSq_attained p a b) as (t & Ht & ->).
    rewrite Hflip. apply distSq_lower. lra.
Qed.

End Distance.

(** ** The ends of a simplified stroke *)

Section Ends.
Local Open Scope R_scope.





End Ends.

(** ** The keyboard *)

Section Keyboard_props.
Local Open Scope string_scope.

Lemma handleUndo_conserves (s : State) :
  (ops (handleUndo s) ++ redo (handleUndo s) = ops s ++ redo s)%list /\
  heap (handleUndo s) = heap s /\ layers (handleUndo s) = layers s /\
  currentLayer (handleUndo s) = currentLayer s /\ tool (handleUndo s) = tool s.
Proof.
  unfold handleUndo. destruct (last (ops s)) as [o|] eqn:Hlast; [|done].
  cbn [ops redo heap layers currentLayer tool setOps setRedo].
  split; [|done].
  apply last_Some in Hlast as [pre Hpre]. rewrite Hpre.
  by rewrite length_app, Nat.add_sub, take_app_length, <- app_assoc.
Qed.

Lemma handleRedo_conserves (s : State) :
  (ops (handleRedo s) ++ redo (handleRedo s) = ops s ++ redo s)%list /\
  heap (handleRedo s) = heap s /\ layers (handleRedo s) = layers s /\
  currentLayer (handleRedo s) = currentLayer s /\ tool (handleRedo s) = tool s.
Proof.
  unfold handleRedo. destruct (redo s) as [|first rest] eqn:Hredo; [by rewrite Hredo|].
  cbn [ops redo heap layers currentLayer tool setOps setRedo].
  split; [|done]. by rewrite <- app_assoc.
Qed.

(** X23. Undo and redo only move the boundary between the document and the
    redo stack: after any sequence of undos and redos, in any order, the
    document followed by the redo stack is the same sequence of Ops as
    before, and no Op object, layer or selection has changed.  Every such
    sequence runs to the end. *)
Theorem history_conserved (acts : list Action) (s : State) :
  Forall (fun a => a = Undo \/ a = Redo) acts ->
  exists s', run acts s = Some s' /\
    (ops s' ++ redo s' = ops s ++ redo s)%list /\
    heap s' = heap s /\ layers s' = layers s /\ currentLayer s' = currentLayer s.
Proof.
  intros Hall. revert s. induction Hall as [|a acts Ha _ IH]; intros s.
  - by exists s.
  - cbn [run]. destruct Ha as [-> | ->]; cbn [step].
    + destruct (IH (handleUndo s)) as (s' & Hrun & H1 & H2 & H3 & H4).
      destruct (handleUndo_conserves s) as (G1 & G2 & G3 & G4 & _).
      exists s'. split; [done|]. by rewrite H1, H2, H3, H4.
    + destruct (IH (handleRedo s)) as (s' & Hrun & H1 & H2 & H3 & H4).
      destruct (handleRedo_conserves s) as (G1 & G2 & G3 & G4 & _).
      exists s'. split; [done|]. by rewrite H1, H2, H3, H4.
Qed.

Lemma setTool_if_frame (b : bool) (t : Tool) (x s : State) :
  ops x = ops s /\ redo x = redo s /\ heap x = heap s /\ layers x = layers s /\
  currentLayer x = currentLayer s ->
  let x' := if b then setTool t x else x in
  ops x' = ops s /\ redo x' = redo s /\ heap x' = heap s /\ layers x' = layers s /\
  currentLayer x' = currentLayer s.
Proof. by destruct b. Qed.

Lemma toolShortcut_frame (key : string) (s : State) :
  ops (toolShortcut key s) = ops s /\ redo (toolShortcut key s) = redo s /\
  heap (toolShortcut key s) = heap s /\ layers (toolShortcut key s) = layers s /\
  currentLayer (toolShortcut key s) = currentLayer s.
Proof. unfold toolShortcut. cbv zeta. by repeat apply setTool_if_frame. Qed.

Lemma history_conserved_witness :
  exists s', run [Undo; Redo; Redo; Undo] twoOps = Some s' /\
    (ops s' ++ redo s' = ops twoOps ++ redo twoOps)%list.
Proof.
  destruct (history_conserved [Undo; Redo; Redo; Undo] twoOps) as (s' & H1 & H2 & _).
  - repeat (constructor; [by (left + right)|]). constructor.
  - exists s'. split; [exact H1 | exact H2].
Defined.

Lemma run_app (a b : list Action) (s : State) :
  run (a ++ b) s = match run a s with Some s1 => run b s1 | None => None end.
Proof.
  revert s. induction a as [|x a IH]; intros s; [done|].
  cbn [app run]. by destruct (step x s).
Qed.

Lemma run_shortcut (b : bool) (t : Tool) (acts : list Action) (s x : State) :
  run acts s = Some x ->
  run (acts ++ (if b then [SetTool t] else [])) s
  = Some (if b then setTool t x else x).
Proof. intros H. rewrite run_app, H. by destruct b. Qed.

Lemma onKey_actions (e : KeyboardEvent.t) (s : State) :
  exists acts, run acts s = Some (onKey e s).
Proof.
  unfold onKey. cbv zeta.
  destruct (_ && _ && _); [by exists [Undo]|].
  destruct (_ && _); [by exists [Redo]|].
  destruct (_ =? _); [by exists [SetShiftKey true]|].
  destruct (_ && _ && _); [|by exists []].
  unfold toolShortcut. cbv zeta. eexists.
  do 8 (apply run_shortcut). exact (eq_refl : run [] s = Some s).
Qed.

(** X24. The keyboard.  A key press never creates, changes or drops an Op
    and never touches the layers: the document followed by the redo stack is
    as before.  It changes the document only as an undo or a redo does, and
    only with Ctrl or Meta held; it changes the tool only with Ctrl, Meta
    and Alt all released, and then leaves document and redo stack alone.
    Apart from the key Shift itself, the case of the key does not matter.  A
    key release changes neither document, redo stack, Op objects nor tool.
    What a key press or release does is what some sequence of the events of
    [Action] does, so the invariants of [run] hold with the keyboard too. *)
Theorem keyboard_scope (e : KeyboardEvent.t) (s : State) :
  let s' := onKey e s in
  (ops s' ++ redo s' = ops s ++ redo s)%list /\
  heap s' = heap s /\ layers s' = layers s /\ currentLayer s' = currentLayer s /\
  (ops s' <> ops s ->
     KeyboardEvent.ctrlKey e || KeyboardEvent.metaKey e = true /\
     (s' = handleUndo s \/ s' = handleRedo s)) /\
  (tool s' <> tool s ->
     KeyboardEvent.ctrlKey e = false /\ KeyboardEvent.metaKey e = false /\
     KeyboardEvent.altKey e = false /\ ops s' = ops s /\ redo s' = redo s) /\
  (forall k, toLowerCase k = toLowerCase (KeyboardEvent.key e) ->
     k <> "Shift" -> KeyboardEvent.key e <> "Shift" ->
     onKey (KeyboardEvent.mk k (KeyboardEvent.ctrlKey e) (KeyboardEvent.metaKey e)
              (KeyboardEvent.shiftKey e) (KeyboardEvent.altKey e)) s = s') /\
  (ops (onUp e s) = ops s /\ redo (onUp e s) = redo s /\
   heap (onUp e s) = heap s /\ tool (onUp e s) = tool s) /\
  (exists acts, run acts s = Some s') /\
  (exists acts, run acts s = Some (onUp e s)).
Proof.
  intros s'. unfold s', onKey. cbv zeta.
  destruct (handleUndo_conserves s) as (U1 & U2 & U3 & U4 & U5).
  destruct (handleRedo_conserves s) as (R1 & R2 & R3 & R4 & R5).
  destruct (toolShortcut_frame (toLowerCase (KeyboardEvent.key e)) s)
    as (T1 & T2 & T3 & T4 & T5).
  split; [|split; [|split; [|split; [|split; [|split; [|split; [|split; [|split]]]]]]]].
  10:{ unfold onUp. destruct (_ =? _); [by exists [SetShiftKey false] | by exists []]. }
  9:{ apply onKey_actions. }
  8:{ unfold onUp. by destruct (_ =? _). }
  7:{ intros k Hk Hk1 Hk2. cbn [KeyboardEvent.key KeyboardEvent.ctrlKey
        KeyboardEvent.metaKey KeyboardEvent.shiftKey KeyboardEvent.altKey].
      rewrite Hk.
      apply String.eqb_neq in Hk1, Hk2. by rewrite Hk1, Hk2. }
  all: destruct (KeyboardEvent.ctrlKey e), (KeyboardEvent.metaKey e),
         (KeyboardEvent.shiftKey e), (KeyboardEvent.altKey e),
         (toLowerCase (KeyboardEvent.key e) =? "z"),
         (toLowerCase (KeyboardEvent.key e) =? "y"),
         (KeyboardEvent.key e =? "Shift");
       cbn [orb andb negb ops redo heap layers currentLayer tool setShiftKey];
       rewrite ?T1, ?T2, ?T3, ?T4, ?T5;
       try done; try (intros Hne; split; [done|]; by (left + right));
       try (intros Hne; by rewrite ?U5, ?R5 in Hne).
Qed.

End Keyboard_props.

(** ** The end of a gesture *)

Section Settle.

Lemma idle_fixed (x : State) :
  isDrawing x = false -> currentStroke x = None -> currentShape x = None ->
  pointerUp x = Some x /\ forall e, pointerMove e x = x.
Proof.
  intros H1 H2 H3. split.
  - unfold pointerUp. rewrite H2, H3. f_equal.
    destruct x. cbn in *. by subst.
  - intros e. unfold pointerMove. by rewrite H1.
Qed.

Lemma pointerUp_total (s : State) :
  exists s', pointerUp s = Some s' /\ isDrawing s' = false /\
    currentStroke s' = None /\
    (currentStroke s = None -> currentShape s' = None) /\
    (currentStroke s <> None -> currentShape s' = currentShape s).
Proof.
  unfold pointerUp. destruct (currentStroke s) as [r|] eqn:Hcur.
  - destruct (heap s !! r) as [[st| | |]|];
      try (eexists; split; [reflexivity|]; by repeat split).
    destruct (StrokeOp.smooth st);
      [|eexists; split; [reflexivity|]; by repeat split].
    destruct (simplifyRDP_total (StrokeOp.points st) 0.9) as (out & -> & _).
    eexists. split; [reflexivity|]. by destruct (decide _).
  - destruct (currentShape s) eqn:Hsh;
      (eexists; split; [reflexivity|]; by repeat split).
Qed.

(** X25. Releasing the pointer always returns, and a second release does
    too; after that no gesture is in progress, and further releases and
    movements change nothing.  Unless a stroke and a shape were both in
    progress, the first release already settles: the release that follows it
    (the pointer leaving the canvas, say) commits nothing twice. *)
Theorem release_settles (s : State) :
  exists s1 s2, pointerUp s = Some s1 /\ pointerUp s1 = Some s2 /\
    isDrawing s2 = false /\ currentStroke s2 = None /\ currentShape s2 = None /\
    pointerUp s2 = Some s2 /\ (forall e, pointerMove e s2 = s2) /\
    (currentStroke s = None \/ currentShape s = None -> s2 = s1).
Proof.
  destruct (pointerUp_total s) as (s1 & Hup1 & Hd1 & Hs1 & Hsh1 & Hsh1').
  destruct (pointerUp_total s1) as (s2 & Hup2 & Hd2 & Hs2 & Hsh2 & _).
  specialize (Hsh2 Hs1).
  destruct (idle_fixed s2 Hd2 Hs2 Hsh2) as [Hfix Hmove].
  exists s1, s2. repeat split; try done.
  intros Hone.
  assert (Hidle1 : currentShape s1 = None).
  { destruct (currentStroke s) eqn:Hcur; [|by apply Hsh1].
    destruct Hone as [Hone|Hone]; [done|]. by rewrite Hsh1'. }
  destruct (idle_fixed s1 Hd1 Hs1 Hidle1) as [Hfix1 _].
  rewrite Hfix1 in Hup2. by injection Hup2.
Qed.

End Settle.

(** ** Drawing calls per entry *)

Section PaintOnce.

Lemma paintOp_adds (layer : Layer.t) (op : Op) (sf : Surface) :
  length (paintOp layer op sf).2 <= S (length sf.2).
Proof.
  destruct op as [st|sh|i|t]; unfold paintOp.
  - destruct (StrokeOp.points st) as [|p rest]; [cbn; lia|].
    destruct (StrokeOp.smooth st).
    + rewrite widths_last. destruct (last rest); cbn; rewrite length_app; cbn; lia.
    + unfold drawSmoothStroke. destruct (_ <? _)%nat; cbn; [lia|].
      rewrite length_app. cbn. lia.
  - destruct (ShapeOp.shape sh); cbn; rewrite length_app; cbn; lia.
  - cbn. rewrite length_app. cbn. lia.
  - cbn. rewrite length_app. cbn. lia.
Qed.

Lemma paintOps_adds (layer : Layer.t) (l : list Op) (sf : Surface) :
  length (fold_left (fun sf op => paintOp layer op sf) l sf).2
  <= length sf.2 + length l.
Proof.
  revert sf. induction l as [|op l IH]; intros sf; cbn [fold_left length]; [lia|].
  specialize (IH (paintOp layer op sf)). pose proof (paintOp_adds layer op sf). lia.
Qed.

Lemma paintLayer_adds (s : State) (sf : Surface) (l : Layer.t) :
  length (paintLayer s sf l).2 <= length sf.2 + length (ofLayer s l).
Proof.
  unfold paintLayer. destruct (negb (Layer.visible l)); [lia|].
  etransitivity; [apply paintOps_adds|]. cbn [onCtx snd].
  unfold layerOps, ofLayer. apply Nat.add_le_mono_l.
  generalize (filter (fun r => layerOf (heap s) r = Some (Layer.id l)) (ops s)).
  intros rs. induction rs as [|r rs IH]; [done|].
  simpl omap. change (list_omap oid Op ?f rs) with (omap f rs).
  destruct (heap s !! r); cbn [length]; lia.
Qed.

Lemma layers_share (g : oid -> option Z) (ls : list Layer.t) (rs : list oid) :
  NoDup (map Layer.id ls) ->
  sum_list_with (fun l => length (filter (fun r => g r = Some (Layer.id l)) rs)) ls
  <= length rs.
Proof.
  intros Hnd. induction rs as [|r rs IH].
  - clear Hnd. induction ls as [|l ls IHl]; [done|]. cbn [sum_list_with].
    rewrite filter_nil. simpl in *. lia.
  - assert (Hstep : forall ls, NoDup (map Layer.id ls) ->
        sum_list_with (fun l => length (filter (fun r => g r = Some (Layer.id l))
                                          (r :: rs))) ls
        <= sum_list_with (fun l => length (filter (fun r => g r = Some (Layer.id l))
                                             rs)) ls
           + (if decide (g r ∈ map (Some ∘ Layer.id) ls) then 1 else 0)).
    { clear. intros ls. induction ls as [|l ls IHl]; intros Hnd; [cbn; lia|].
      cbn [sum_list_with]. apply NoDup_cons in Hnd as [Hl Hnd].
      specialize (IHl Hnd).
      assert (Hin_l : g r = Some (Layer.id l) -> g r ∉ map (Some ∘ Layer.id) ls).
      { intros Heq Hin. apply Hl.
        apply list_elem_of_fmap in Hin as (l' & Hl' & Hin).
        cbn in Hl'. rewrite Heq in Hl'. injection Hl' as ->.
        by apply list_elem_of_fmap_2. }
      destruct (decide (g r = Some (Layer.id l))) as [Heq|Hne].
      - rewrite filter_cons_True by done. simpl length.
        rewrite decide_True by (apply elem_of_cons; by left).
        rewrite decide_False in IHl by (by apply Hin_l). lia.
      - rewrite filter_cons_False by done.
        destruct (decide (g r ∈ map (Some ∘ Layer.id) ls)) as [Hin|Hnin].
        + rewrite decide_True by (apply elem_of_cons; by right).
          lia.
        + rewrite decide_False; [lia|].
          intros Hin. apply elem_of_cons in Hin as [Hin|Hin]; [|done].
          by apply Hne. }
    specialize (Hstep ls Hnd). simpl length.
    destruct (decide (g r ∈ map (Some ∘ Layer.id) ls)); lia.
Qed.

Lemma paintLayers_adds (s : State) (ls : list Layer.t) (sf : Surface) :
  length (fold_left (paintLayer s) ls sf).2
  <= length sf.2 + sum_list_with (fun l => length (ofLayer s l)) ls.
Proof.
  revert sf. induction ls as [|l ls IH]; intros sf; cbn [fold_left sum_list_with]; [lia|].
  specialize (IH (paintLayer s sf l)). pose proof (paintLayer_adds s sf l). lia.
Qed.

(** X26. When no two layers share an id, a render issues at most one
    drawing call for each document entry, besides the background. *)
Theorem render_paints_once (ctx : Ctx.t) (s : State) (c : Canvas.t) :
  canvasRef s = Some c -> NoDup (layerIds s) ->
  exists sf, renderAll ctx s = Some sf /\ length sf.2 <= 1 + length (ops s).
Proof.
  intros Hc Hnd. unfold renderAll. rewrite Hc. eexists. split; [reflexivity|].
  etransitivity; [apply paintLayers_adds|]. cbn [paintBackground snd length].
  pose proof (layers_share (layerOf (heap s)) (layers s) (ops s) Hnd) as H.
  unfold ofLayer. lia.
Qed.

Lemma render_paints_once_witness :
  exists sf, renderAll ctx0 layered = Some sf /\ length sf.2 <= 1 + length (ops layered).
Proof.
  apply (render_paints_once ctx0 layered canvas0).
  - reflexivity.
  - apply (bool_decide_unpack _). vm_compute. exact I.
Defined.

End PaintOnce.
